(** * knobdrag: the pointer-drag action of the knob (src/lib/knobdrag.ts)

    A shallow embedding of [knobdrag] and of the two behaviour modules it
    installs ([pointercapture], [pointerlock]), together with the part of
    the browser they talk to: the listener lists of the element and of
    the document, pointer capture, the pointer-lock element, the writable
    stores and the input elements.  The handlers are state transformers;
    an event is dispatched to the listeners registered for it.

    Numbers.  A JavaScript [number] is a binary64 double; here it is an
    exact rational [Q], and [==] is [Qeq].  The two differ in three ways:
    the doubles round the result of [+], [-] and [/] ([%] is exact on
    both sides); the literal [0.000001] is the double next to 1/1000000;
    and a division by zero yields an infinity or NaN where [Qdiv] yields
    0.  With [space = 0] the code gets an infinite or NaN movement, which
    this embedding does not have.  The statements about numbers are
    therefore of three kinds only: they repeat the expression the code
    evaluates, or they use order and exact multiples alone (rounding to
    the nearest double keeps the order with respect to any double), and
    where a quotient matters they assume [space <> 0].

    The [options] store is imported from [./options.js]; its value when
    [knobdrag] subscribes and its later notifications are inputs here. *)

From Stdlib Require Import QArith Qminmax Qround Lqa.
From Stdlib Require Import ZArith Lia List String Bool.
Import ListNotations.

Open Scope Q_scope.

(** ** JavaScript numbers *)

Module JS.

(** [ToBoolean] of a number: zero is falsy. *)
Definition truthy (x : Q) : bool := negb (Qeq_bool x 0).

(** The integer part of a quotient, rounded toward zero. *)
Definition trunc (x : Q) : Z := Z.quot (Qnum x) (Zpos (Qden x)).

(** [v % s]: the remainder of the truncated division, with the sign of
    the dividend. *)
Definition rem (v s : Q) : Q := v - s * inject_Z (trunc (v / s)).

(** [Math.max] and [Math.min] of two numbers. *)
Definition Math_max (a b : Q) : Q := if Qle_bool a b then b else a.
Definition Math_min (a b : Q) : Q := if Qle_bool a b then a else b.

(** [a > b]. *)
Definition gt (a b : Q) : bool := negb (Qle_bool a b).

End JS.

(** ** Parameters of the action *)

Record Params : Type := mkParams {
  min : Q;
  max : Q;
  step : Q;
  space : Q;
  valueStore : nat;   (* a reference to a [Writable<number>] *)
  inputElem : nat     (* a reference to an [HTMLInputElement] *)
}.

(** [clamp(a, b, c)], the last function of the file. *)
Definition clamp (a b c : Q) : Q := JS.Math_min (JS.Math_max a b) c.

(** The literal [0.000001] of [floorToStep]: 1/1000000 here, the double
    next to it in the code. *)
Definition epsilon : Q := 1 # 1000000.

(** [floorToStep(v)]; it reads [params.step] when it is called.  [%] is
    exact in the code as it is here; the sum and the difference are
    rounded in the code and exact here. *)
Definition floorToStep (params : Params) (v : Q) : Q :=
  let surplus := JS.rem v (step params) in
  let surplus := if JS.gt (surplus + epsilon) (step params) then 0 else surplus in
  v - surplus.

(** ** The browser: listeners, capture, lock, stores *)

(** The two event targets of the file: [elem] and [document]. *)
Inductive Target : Type := Elem | Document.

(** The identity of a listener function.  [preventDefault] and
    [stopPropagation] are functions of the module; [knobMove],
    [knobRelease] and [pointerDown] are closures made once by an
    attachment; every call of [pointerlock(elem)] makes three new
    closures, told apart by the number of the call.  [Foreign] stands for
    the listeners of other code. *)
Inductive Callback : Type :=
| KnobMove
| KnobRelease
| PointerDown
| PreventDefault
| StopPropagation
| EnterLock (n : nat)
| ExitLock (n : nat)
| LockChange (n : nat)
| Foreign (id : nat).

Record Listener : Type := mkListener {
  target : Target;
  type : string;
  callback : Callback
}.

Definition Target_eq_dec (a b : Target) : {a = b} + {a <> b}.
Proof. decide equality. Defined.

Definition Callback_eq_dec (a b : Callback) : {a = b} + {a <> b}.
Proof. decide equality; apply Nat.eq_dec. Defined.

Definition Listener_eq_dec (a b : Listener) : {a = b} + {a <> b}.
Proof.
  decide equality;
    [apply Callback_eq_dec | apply string_dec | apply Target_eq_dec].
Defined.

(** What the handlers ask of objects outside the file. *)
Inductive Effect : Type :=
| Select (input : nat)                 (* inputElem.select() *)
| RequestPointerLock                   (* elem.requestPointerLock() *)
| ExitPointerLock                      (* document.exitPointerLock() *)
| StoreWrite (store : nat) (v : Q).    (* the value returned to store.update *)

(** The value an entry of the [actions] map holds: the object returned by
    [pointercapture(elem)] or by the [n]-th call of [pointerlock(elem)]. *)
Inductive Action : Type :=
| PointerCaptureAction
| PointerLockAction (n : nat).

(** The browser before the action is attached. *)
Record Browser : Type := mkBrowser {
  b_listeners : list Listener;
  b_captured : list Z;
  b_pointerLockElement : bool;
  b_stores : nat -> Q
}.

(** The browser together with the variables closed over by [knobdrag]. *)
Record State : Type := mkState {
  listeners : list Listener;      (* listeners of elem and document, in order *)
  captured : list Z;              (* pointer ids captured by elem *)
  pointerLockElement : bool;      (* document.pointerLockElement === elem *)
  stores : nat -> Q;              (* current value of every writable store *)
  effects : list Effect;          (* calls made so far, latest first *)
  params : Params;
  range : Q;
  scaleFactor : Q;
  rawValue : option Q;            (* null | number *)
  moved : bool;
  actions : list (string * Action);   (* a Map, in insertion order *)
  lockCalls : nat                 (* calls of pointerlock(elem) so far *)
}.

Definition set_listeners (f : list Listener -> list Listener) (s : State) : State :=
  mkState (f (listeners s)) (captured s) (pointerLockElement s) (stores s)
          (effects s) (params s) (range s) (scaleFactor s) (rawValue s)
          (moved s) (actions s) (lockCalls s).

Definition set_captured (c : list Z) (s : State) : State :=
  mkState (listeners s) c (pointerLockElement s) (stores s)
          (effects s) (params s) (range s) (scaleFactor s) (rawValue s)
          (moved s) (actions s) (lockCalls s).

Definition set_pointerLockElement (b : bool) (s : State) : State :=
  mkState (listeners s) (captured s) b (stores s)
          (effects s) (params s) (range s) (scaleFactor s) (rawValue s)
          (moved s) (actions s) (lockCalls s).

Definition set_stores (st : nat -> Q) (s : State) : State :=
  mkState (listeners s) (captured s) (pointerLockElement s) st
          (effects s) (params s) (range s) (scaleFactor s) (rawValue s)
          (moved s) (actions s) (lockCalls s).

Definition emit (e : Effect) (s : State) : State :=
  mkState (listeners s) (captured s) (pointerLockElement s) (stores s)
          (e :: effects s) (params s) (range s) (scaleFactor s) (rawValue s)
          (moved s) (actions s) (lockCalls s).

Definition set_params (p : Params) (s : State) : State :=
  mkState (listeners s) (captured s) (pointerLockElement s) (stores s)
          (effects s) p (range s) (scaleFactor s) (rawValue s)
          (moved s) (actions s) (lockCalls s).

Definition set_rawValue (r : option Q) (s : State) : State :=
  mkState (listeners s) (captured s) (pointerLockElement s) (stores s)
          (effects s) (params s) (range s) (scaleFactor s) r
          (moved s) (actions s) (lockCalls s).

Definition set_moved (m : bool) (s : State) : State :=
  mkState (listeners s) (captured s) (pointerLockElement s) (stores s)
          (effects s) (params s) (range s) (scaleFactor s) (rawValue s)
          m (actions s) (lockCalls s).

Definition set_actions (a : list (string * Action)) (s : State) : State :=
  mkState (listeners s) (captured s) (pointerLockElement s) (stores s)
          (effects s) (params s) (range s) (scaleFactor s) (rawValue s)
          (moved s) a (lockCalls s).

Definition set_lockCalls (n : nat) (s : State) : State :=
  mkState (listeners s) (captured s) (pointerLockElement s) (stores s)
          (effects s) (params s) (range s) (scaleFactor s) (rawValue s)
          (moved s) (actions s) n.

(** [target.addEventListener(type, callback)]: a listener already in the
    list is not added again. *)
Definition addEventListener (t : Target) (ty : string) (cb : Callback)
    (s : State) : State :=
  let l := mkListener t ty cb in
  if in_dec Listener_eq_dec l (listeners s) then s
  else set_listeners (fun ls => ls ++ [l]) s.

(** [target.removeEventListener(type, callback)]. *)
Definition removeEventListener (t : Target) (ty : string) (cb : Callback)
    (s : State) : State :=
  set_listeners (remove Listener_eq_dec (mkListener t ty cb)) s.

(** [elem.hasPointerCapture(pointerId)] and [elem.setPointerCapture]. *)
Definition hasPointerCapture (pointerId : Z) (s : State) : bool :=
  existsb (Z.eqb pointerId) (captured s).

Definition setPointerCapture (pointerId : Z) (s : State) : State :=
  if hasPointerCapture pointerId s then s
  else set_captured (pointerId :: captured s) s.

(** [store.update(fn)] with [v] the value [fn] returned. *)
Definition store_put (k : nat) (v : Q) (st : nat -> Q) : nat -> Q :=
  fun k' => if Nat.eqb k' k then v else st k'.

Definition store_update (k : nat) (v : Q) (s : State) : State :=
  emit (StoreWrite k v) (set_stores (store_put k v (stores s)) s).

(** The [Map] operations used on [actions]. *)
Fixpoint Map_get (k : string) (m : list (string * Action)) : option Action :=
  match m with
  | [] => None
  | (k', a) :: m' => if String.eqb k k' then Some a else Map_get k m'
  end.

Fixpoint Map_set (k : string) (a : Action) (m : list (string * Action))
    : list (string * Action) :=
  match m with
  | [] => [(k, a)]
  | (k', a') :: m' =>
      if String.eqb k k' then (k, a) :: m' else (k', a') :: Map_set k a m'
  end.

Definition Map_delete (k : string) (m : list (string * Action))
    : list (string * Action) :=
  filter (fun ka => negb (String.eqb k (fst ka))) m.

(** The fields of a DOM event that the handlers read. *)
Record DomEvent : Type := mkDomEvent {
  movementY : Q;
  pointerId : Z;
  button : Z
}.

(** ** The program *)

(** [hasCapture(pointerId, elem)]. *)
Definition hasCapture (pointerId : Z) (s : State) : bool :=
  hasPointerCapture pointerId s || pointerLockElement s.

(** [stopPropagation] and [preventDefault] only touch the event. *)
Definition stopPropagation (e : DomEvent) (s : State) : State := s.
Definition preventDefault (e : DomEvent) (s : State) : State := s.

(** *** pointerlock(elem) *)

Definition enterLock (e : DomEvent) (s : State) : State :=
  if Z.eqb (button e) 2 then s else emit RequestPointerLock s.

Definition exitLock (e : DomEvent) (s : State) : State :=
  emit ExitPointerLock s.

Definition lockChange (e : DomEvent) (s : State) : State :=
  if pointerLockElement s
  then addEventListener Elem "pointermove" StopPropagation s
  else removeEventListener Elem "pointermove" StopPropagation s.

Definition pointerlock (s : State) : Action * State :=
  let n := lockCalls s in
  let s := set_lockCalls (S n) s in
  let s := addEventListener Elem "mousedown" (EnterLock n) s in
  let s := addEventListener Elem "mouseup" (ExitLock n) s in
  let s := addEventListener Document "pointerlockchange" (LockChange n) s in
  (PointerLockAction n, s).

(** *** pointercapture(elem) *)

Definition pointerDown (e : DomEvent) (s : State) : State :=
  if Z.eqb (button e) 2 then s else setPointerCapture (pointerId e) s.

Definition pointercapture (s : State) : Action * State :=
  let s := addEventListener Elem "pointerdown" PointerDown s in
  let s := addEventListener Elem "touchmove" PreventDefault s in
  (PointerCaptureAction, s).

(** [action.destroy()] of the object either module returns. *)
Definition action_destroy (a : Action) (s : State) : State :=
  match a with
  | PointerLockAction n =>
      let s := removeEventListener Elem "mousedown" (EnterLock n) s in
      let s := removeEventListener Elem "mouseup" (ExitLock n) s in
      removeEventListener Document "pointerlockchange" (LockChange n) s
  | PointerCaptureAction =>
      let s := removeEventListener Elem "pointerdown" PointerDown s in
      removeEventListener Elem "touchmove" PreventDefault s
  end.

(** *** knobdrag(elem, params) *)

(** The value of the [options] store; only [lockCursor] is read. *)
Record Options : Type := mkOptions { lockCursor : bool }.

(** The function given to [options.subscribe]. *)
Definition optionsSubscriber (o : Options) (s : State) : State :=
  let s := match Map_get "pointerlock" (actions s) with
           | Some a => action_destroy a s
           | None => s
           end in
  if lockCursor o then
    let (a, s) := pointerlock s in
    set_actions (Map_set "pointerlock" a (actions s)) s
  else
    set_actions (Map_delete "pointerlock" (actions s)) s.

(** [scaleMovement(distance)] divides by the [scaleFactor] computed when
    the action was attached.  The quotient is rounded in the code and
    exact here, and for [scaleFactor = 0] it is infinite in the code and
    0 here. *)
Definition scaleMovement (s : State) (distance : Q) : Q :=
  distance / scaleFactor s.

Definition knobMove (e : DomEvent) (s : State) : State :=
  if JS.truthy (movementY e) && hasCapture (pointerId e) s then
    let value := stores s (valueStore (params s)) in
    let s := set_moved true s in
    let raw := match rawValue s with None => value | Some r => r end in
    let raw := clamp (min (params s))
                     (raw - scaleMovement s (movementY e))
                     (max (params s)) in
    let s := set_rawValue (Some raw) s in
    store_update (valueStore (params s)) (floorToStep (params s) raw) s
  else s.

Definition knobRelease (e : DomEvent) (s : State) : State :=
  let s := if moved s then s else emit (Select (inputElem (params s))) s in
  set_moved false s.

Definition knobdrag (b : Browser) (o : Options) (params : Params) : State :=
  let range := max params - min params in
  let scaleFactor := space params / range in
  let s := mkState (b_listeners b) (b_captured b) (b_pointerLockElement b)
                   (b_stores b) [] params range scaleFactor None false [] 0 in
  let (a, s) := pointercapture s in
  let s := set_actions (Map_set "pointercapture" a (actions s)) s in
  let s := optionsSubscriber o s in
  let s := addEventListener Elem "pointermove" KnobMove s in
  addEventListener Elem "pointerup" KnobRelease s.

(** The [destroy] and [update] of the object [knobdrag] returns. *)
Definition destroy (s : State) : State :=
  let s := fold_left (fun s ka => action_destroy (snd ka) s) (actions s) s in
  let s := removeEventListener Elem "pointermove" KnobMove s in
  removeEventListener Elem "pointerup" KnobMove s.

Definition update (newParams : Params) (s : State) : State :=
  set_params newParams s.

(** ** Events *)

(** Calling a listener. *)
Definition call (cb : Callback) (e : DomEvent) (s : State) : State :=
  match cb with
  | KnobMove => knobMove e s
  | KnobRelease => knobRelease e s
  | PointerDown => pointerDown e s
  | PreventDefault => preventDefault e s
  | StopPropagation => stopPropagation e s
  | EnterLock _ => enterLock e s
  | ExitLock _ => exitLock e s
  | LockChange _ => lockChange e s
  | Foreign _ => s
  end.

Definition listens (t : Target) (ty : string) (l : Listener) : bool :=
  (if Target_eq_dec (target l) t then true else false)
  && String.eqb (type l) ty.

(** Dispatching an event of type [ty] at [t]: the listeners registered
    when the dispatch starts are called in the order they were added. *)
Definition dispatch (t : Target) (ty : string) (e : DomEvent) (s : State)
    : State :=
  fold_left (fun s l => call (callback l) e s)
            (filter (listens t ty) (listeners s)) s.

(** What can happen to an attached action: events of the element and of
    the document, changes the browser makes on its own, notifications of
    the options store, calls of the returned object, and writes to a
    store by other code. *)
Inductive Event : Type :=
| EvPointerMove (e : DomEvent)
| EvPointerUp (e : DomEvent)
| EvPointerDown (e : DomEvent)
| EvTouchMove (e : DomEvent)
| EvMouseDown (e : DomEvent)
| EvMouseUp (e : DomEvent)
| EvPointerLockChange (locked : bool)
| EvLostPointerCapture (pointerId : Z)
| EvOptions (o : Options)
| EvUpdate (newParams : Params)
| EvDestroy
| EvStoreSet (store : nat) (v : Q).

Definition noEvent : DomEvent := mkDomEvent 0 0 0.

Definition fire (s : State) (ev : Event) : State :=
  match ev with
  | EvPointerMove e => dispatch Elem "pointermove" e s
  | EvPointerUp e => dispatch Elem "pointerup" e s
  | EvPointerDown e => dispatch Elem "pointerdown" e s
  | EvTouchMove e => dispatch Elem "touchmove" e s
  | EvMouseDown e => dispatch Elem "mousedown" e s
  | EvMouseUp e => dispatch Elem "mouseup" e s
  | EvPointerLockChange locked =>
      dispatch Document "pointerlockchange" noEvent
               (set_pointerLockElement locked s)
  | EvLostPointerCapture pid =>
      set_captured (filter (fun p => negb (Z.eqb pid p)) (captured s)) s
  | EvOptions o => optionsSubscriber o s
  | EvUpdate p => update p s
  | EvDestroy => destroy s
  | EvStoreSet k v => set_stores (store_put k v (stores s)) s
  end.

Definition run (s : State) (evs : list Event) : State := fold_left fire evs s.

(** A pointer move is effective when [knobMove] takes its branch. *)
Definition effective (s : State) (e : DomEvent) : bool :=
  JS.truthy (movementY e) && hasCapture (pointerId e) s.

(** The values written to stores so far, earliest first. *)
Definition written (s : State) : list (nat * Q) :=
  rev (flat_map (fun e => match e with
                          | StoreWrite k v => [(k, v)]
                          | _ => []
                          end) (effects s)).

(** ** Notions used in the statements *)

(** [x] is an integer multiple of [s]. *)
Definition multiple_of (s x : Q) : Prop := exists k : Z, x == s * inject_Z k.


Definition in_range (p : Params) (v : Q) : Prop := min p <= v /\ v <= max p.

(** The bounds and the step fit: a positive [min] and a negative [max]
    are multiples of [step]. *)
Definition fits_step (p : Params) : Prop :=
  min p <= max p /\ 0 < step p /\
  (min p <= 0 \/ multiple_of (step p) (min p)) /\
  (0 <= max p \/ multiple_of (step p) (max p)).

(** An update that keeps [min], [max] and [step]. *)
Definition keeps_bounds (p : Params) (ev : Event) : Prop :=
  match ev with
  | EvUpdate p' => min p' = min p /\ max p' = max p /\ step p' = step p
  | _ => True
  end.

(** The value [knobMove] accumulates from: [rawValue], or the value of
    the store while [rawValue] is null. *)
Definition accumulated (s : State) : Q :=
  match rawValue s with
  | None => stores s (valueStore (params s))
  | Some r => r
  end.

(** The listeners before the attachment belong to other code. *)
Definition is_foreign (l : Listener) : Prop :=
  match callback l with Foreign _ => True | _ => False end.

Definition foreign_browser (b : Browser) : Prop :=
  NoDup (b_listeners b) /\ Forall is_foreign (b_listeners b).

Definition is_destroy (ev : Event) : bool :=
  match ev with EvDestroy => true | _ => false end.

Definition is_pointerup (ev : Event) : bool :=
  match ev with EvPointerUp _ => true | _ => false end.

(** No pointer move of [evs], fired from [s] on, is effective. *)
Fixpoint no_effective_move (s : State) (evs : list Event) : Prop :=
  match evs with
  | [] => True
  | ev :: evs' =>
      match ev with
      | EvPointerMove e => effective s e = false
      | _ => True
      end /\ no_effective_move (fire s ev) evs'
  end.

(** The three listeners of the [n]-th call of [pointerlock(elem)]. *)
Definition lock_listeners (n : nat) : list Listener :=
  [ mkListener Elem "mousedown" (EnterLock n);
    mkListener Elem "mouseup" (ExitLock n);
    mkListener Document "pointerlockchange" (LockChange n) ].

(** The call of [pointerlock(elem)] that made a closure. *)
Definition lock_index (cb : Callback) : option nat :=
  match cb with
  | EnterLock n | ExitLock n | LockChange n => Some n
  | _ => None
  end.

(** Every listener of the attachment is registered where the code
    registers it. *)
Definition well_placed (l : Listener) : Prop :=
  match callback l with
  | KnobMove => l = mkListener Elem "pointermove" KnobMove
  | KnobRelease => l = mkListener Elem "pointerup" KnobRelease
  | PointerDown => l = mkListener Elem "pointerdown" PointerDown
  | PreventDefault => l = mkListener Elem "touchmove" PreventDefault
  | StopPropagation => l = mkListener Elem "pointermove" StopPropagation
  | EnterLock n => l = mkListener Elem "mousedown" (EnterLock n)
  | ExitLock n => l = mkListener Elem "mouseup" (ExitLock n)
  | LockChange n => l = mkListener Document "pointerlockchange" (LockChange n)
  | Foreign _ => True
  end.

(** The invariant of an attached action: no listener is registered
    twice, each is where the code put it, the closures of a
    [pointerlock(elem)] call are registered only while that call's object
    is the 'pointerlock' entry of [actions], and that entry comes from an
    earlier call. *)
Record wf (s : State) : Prop := mkWf {
  wf_nodup : NoDup (listeners s);
  wf_placed : Forall well_placed (listeners s);
  wf_lock : forall l n, In l (listeners s) -> lock_index (callback l) = Some n ->
            Map_get "pointerlock" (actions s) = Some (PointerLockAction n);
  wf_entry : forall a, Map_get "pointerlock" (actions s) = Some a ->
             exists n, a = PointerLockAction n /\ (n < lockCalls s)%nat
}.

(** Everything but the listener list, the [actions] map and the count of
    [pointerlock(elem)] calls. *)
Definition core (s : State) :=
  (captured s, pointerLockElement s, stores s, effects s,
   params s, range s, scaleFactor s, rawValue s, moved s).

(** The bounds and the step are those of [p], and every value written so
    far lies between the bounds. *)
Definition bounded (p : Params) (s : State) : Prop :=
  min (params s) = min p /\ max (params s) = max p /\
  step (params s) = step p /\
  forall k v, In (k, v) (written s) -> in_range p v.

Definition no_lock_listener (s : State) : Prop :=
  forall l, In l (listeners s) -> lock_index (callback l) = None.

(** The variables of the knob, the stores and the written values. *)
Definition knobvars (s : State) :=
  (params s, range s, scaleFactor s, rawValue s, moved s, stores s, written s).

Definition knobMove_listener : Listener := mkListener Elem "pointermove" KnobMove.
Definition knobRelease_listener : Listener := mkListener Elem "pointerup" KnobRelease.

(** The action is attached: the invariant holds and both handlers of the
    knob are registered. *)
Definition attached (s : State) : Prop :=
  wf s /\ In knobMove_listener (listeners s) /\
  In knobRelease_listener (listeners s).

(** An effective pointer move has occurred in [evs], fired from [s0] on,
    and no pointerup after it. *)
Definition moved_since_release (s0 : State) (evs : list Event) : Prop :=
  exists pre e post,
    evs = pre ++ EvPointerMove e :: post /\
    effective (run s0 pre) e = true /\
    existsb is_pointerup post = false.

(** The bounds are on the step grid above zero and the scale is defined:
    [0 <= min <= max], [step > 0], [min] is an integer multiple of [step]
    and [space] is not zero. *)
Definition on_grid (p : Params) : Prop :=
  0 <= min p /\ min p <= max p /\ 0 < step p /\
  multiple_of (step p) (min p) /\ ~ space p == 0.

(** The browser reports that the capture of [pid] is lost. *)
Definition releases (pid : Z) (ev : Event) : bool :=
  match ev with
  | EvLostPointerCapture q => Z.eqb q pid
  | _ => false
  end.

(** Deciding a closed comparison of rationals. *)
Ltac qdecide :=
  match goal with
  | |- ~ (_ == _) =>
      let H := fresh in
      intro H; apply Qeq_bool_iff in H; vm_compute in H; discriminate H
  | |- ~ (_ <= _) => apply Qlt_not_le; reflexivity
  | |- ~ (_ < _) => apply Qle_not_lt; discriminate
  | |- _ == _ => apply Qeq_bool_iff; vm_compute; reflexivity
  | |- _ <= _ => apply Qle_bool_iff; vm_compute; reflexivity
  | |- _ < _ => reflexivity
  end.

(** * Lemmas *)

(** ** Arithmetic of the number operations *)

Lemma Math_max_spec (a b : Q) :
  (a <= b /\ JS.Math_max a b = b) \/ (b < a /\ JS.Math_max a b = a).
Proof.
  unfold JS.Math_max. destruct (Qle_bool a b) eqn:E.
  - left. split; [now apply Qle_bool_iff | reflexivity].
  - right. split; [| reflexivity].
    apply Qnot_le_lt. intro H. apply Qle_bool_iff in H. congruence.
Qed.

Lemma Math_min_spec (a b : Q) :
  (a <= b /\ JS.Math_min a b = a) \/ (b < a /\ JS.Math_min a b = b).
Proof.
  unfold JS.Math_min. destruct (Qle_bool a b) eqn:E.
  - left. split; [now apply Qle_bool_iff | reflexivity].
  - right. split; [| reflexivity].
    apply Qnot_le_lt. intro H. apply Qle_bool_iff in H. congruence.
Qed.

Lemma gt_true (a b : Q) : JS.gt a b = true <-> b < a.
Proof.
  unfold JS.gt. rewrite negb_true_iff. split.
  - intro E. apply Qnot_le_lt. intro H. apply Qle_bool_iff in H. congruence.
  - intro H. destruct (Qle_bool a b) eqn:E; [| reflexivity].
    apply Qle_bool_iff in E. lra.
Qed.

Lemma gt_false (a b : Q) : JS.gt a b = false <-> a <= b.
Proof.
  unfold JS.gt. rewrite negb_false_iff. apply Qle_bool_iff.
Qed.

Lemma clamp_bounds (a b c : Q) :
  a <= c -> a <= clamp a b c /\ clamp a b c <= c.
Proof.
  intro H. unfold clamp.
  destruct (Math_max_spec a b) as [[H1 E1] | [H1 E1]]; rewrite E1;
    destruct (Math_min_spec b c) as [[H2 E2] | [H2 E2]];
    destruct (Math_min_spec a c) as [[H3 E3] | [H3 E3]];
    try rewrite E2; try rewrite E3; lra.
Qed.

Lemma trunc_nonneg (x : Q) : 0 <= x -> JS.trunc x = Qfloor x.
Proof.
  destruct x as [n d]. unfold Qle, JS.trunc, Qfloor. simpl. intro H.
  apply Z.quot_div_nonneg; lia.
Qed.

Lemma trunc_nonpos (x : Q) : x <= 0 -> JS.trunc x = Qceiling x.
Proof.
  destruct x as [n d]. unfold Qle, JS.trunc, Qceiling, Qfloor. simpl. intro H.
  replace n with (- (- n))%Z at 1 by lia.
  rewrite Z.quot_opp_l by lia.
  rewrite Z.quot_div_nonneg by lia. reflexivity.
Qed.

Lemma trunc_nonneg_bounds (x : Q) :
  0 <= x -> inject_Z (JS.trunc x) <= x /\ x < inject_Z (JS.trunc x) + 1.
Proof.
  intro H. rewrite (trunc_nonneg x H). split.
  - apply Qfloor_le.
  - pose proof (Qlt_floor x) as L. rewrite inject_Z_plus in L. exact L.
Qed.

Lemma trunc_nonpos_bounds (x : Q) :
  x <= 0 -> x <= inject_Z (JS.trunc x) /\ inject_Z (JS.trunc x) - 1 < x.
Proof.
  intro H. rewrite (trunc_nonpos x H). split.
  - apply Qle_ceiling.
  - pose proof (Qceiling_lt x) as L.
    unfold Z.sub in L. rewrite inject_Z_plus, inject_Z_opp in L. exact L.
Qed.

Lemma trunc_nonneg_sign (x : Q) : 0 <= x -> 0 <= inject_Z (JS.trunc x).
Proof.
  intro H. rewrite (trunc_nonneg x H).
  change 0 with (inject_Z 0). rewrite <- Zle_Qle.
  change 0%Z with (Qfloor 0). now apply Qfloor_resp_le.
Qed.

Lemma div_nonneg (v s : Q) : 0 < s -> 0 <= v -> 0 <= v / s.
Proof.
  intros Hs Hv. apply Qle_shift_div_l; [exact Hs | lra].
Qed.

Lemma div_nonpos (v s : Q) : 0 < s -> v <= 0 -> v / s <= 0.
Proof.
  intros Hs Hv. apply Qle_shift_div_r; [exact Hs | lra].
Qed.

Lemma mul_div (v s : Q) : 0 < s -> s * (v / s) == v.
Proof. intro Hs. field. lra. Qed.

(** For a nonnegative dividend [%] is the remainder of the floored
    division. *)
Lemma rem_nonneg_bounds (v s : Q) :
  0 < s -> 0 <= v -> 0 <= JS.rem v s /\ JS.rem v s < s.
Proof.
  intros Hs Hv. unfold JS.rem.
  pose proof (mul_div v s Hs) as E.
  destruct (trunc_nonneg_bounds (v / s) (div_nonneg v s Hs Hv)) as [L U].
  split; nra.
Qed.

(** For a negative dividend the remainder is negative or zero. *)
Lemma rem_nonpos_bounds (v s : Q) :
  0 < s -> v <= 0 -> - s < JS.rem v s /\ JS.rem v s <= 0.
Proof.
  intros Hs Hv. unfold JS.rem.
  pose proof (mul_div v s Hs) as E.
  destruct (trunc_nonpos_bounds (v / s) (div_nonpos v s Hs Hv)) as [L U].
  split; nra.
Qed.

(** ** floorToStep *)

Lemma trunc_of_integer (x : Q) (k : Z) : x == inject_Z k -> JS.trunc x = k.
Proof.
  destruct x as [n d]. unfold Qeq, JS.trunc. simpl. intro E.
  rewrite Z.mul_1_r in E. subst n. apply Z.quot_mul. discriminate.
Qed.

Lemma rem_of_multiple (v s : Q) :
  ~ s == 0 -> multiple_of s v -> JS.rem v s == 0.
Proof.
  intros Hs [k E]. unfold JS.rem.
  assert (D : v / s == inject_Z k) by (rewrite E; field; exact Hs).
  rewrite (trunc_of_integer _ _ D). rewrite E. ring.
Qed.

Lemma floorToStep_cases (p : Params) (v : Q) :
  (JS.rem v (step p) + epsilon <= step p /\
   floorToStep p v = v - JS.rem v (step p)) \/
  (step p < JS.rem v (step p) + epsilon /\ floorToStep p v = v - 0).
Proof.
  unfold floorToStep.
  destruct (JS.gt (JS.rem v (step p) + epsilon) (step p)) eqn:E.
  - right. split; [now apply gt_true | reflexivity].
  - left. split; [now apply gt_false | reflexivity].
Qed.

(** A multiple of the step that lies strictly below the next multiple
    after [k] is at most the [k]-th. *)
Lemma multiple_le (s m : Q) (k : Z) :
  0 < s -> multiple_of s m -> m < s * (inject_Z k + 1) -> m <= s * inject_Z k.
Proof.
  intros Hs [j Ej] H.
  assert (L : inject_Z j < inject_Z (k + 1)).
  { rewrite inject_Z_plus. change (inject_Z 1) with 1.
    apply (Qmult_lt_l _ _ s Hs). lra. }
  rewrite <- Zlt_Qlt in L.
  assert (L' : inject_Z j <= inject_Z k) by (rewrite <- Zle_Qle; lia).
  nra.
Qed.

Lemma multiple_ge (s m : Q) (k : Z) :
  0 < s -> multiple_of s m -> s * (inject_Z k - 1) < m -> s * inject_Z k <= m.
Proof.
  intros Hs [j Ej] H.
  assert (L : inject_Z (k - 1) < inject_Z j).
  { unfold Z.sub. rewrite inject_Z_plus, inject_Z_opp.
    change (inject_Z 1) with 1.
    apply (Qmult_lt_l _ _ s Hs). lra. }
  rewrite <- Zlt_Qlt in L.
  assert (L' : inject_Z k <= inject_Z j) by (rewrite <- Zle_Qle; lia).
  nra.
Qed.

Lemma floorToStep_nonneg (p : Params) (v : Q) :
  0 < step p -> 0 <= v -> 0 <= floorToStep p v /\ floorToStep p v <= v.
Proof.
  intros Hs Hv.
  destruct (rem_nonneg_bounds v (step p) Hs Hv) as [L U].
  assert (T := trunc_nonneg_sign _ (div_nonneg v (step p) Hs Hv)).
  destruct (floorToStep_cases p v) as [[_ E] | [_ E]]; rewrite E.
  - split; [| lra]. unfold JS.rem. nra.
  - split; lra.
Qed.

Lemma floorToStep_nonpos (p : Params) (v : Q) :
  0 < step p -> v <= 0 -> v <= floorToStep p v /\ floorToStep p v <= 0.
Proof.
  intros Hs Hv.
  destruct (rem_nonpos_bounds v (step p) Hs Hv) as [L U].
  destruct (trunc_nonpos_bounds _ (div_nonpos v (step p) Hs Hv)) as [T1 T2].
  pose proof (mul_div v (step p) Hs) as D.
  destruct (floorToStep_cases p v) as [[_ E] | [_ E]]; rewrite E.
  - split; [lra |]. unfold JS.rem.
    assert (inject_Z (JS.trunc (v / step p)) <= 0).
    { rewrite (trunc_nonpos _ (div_nonpos v (step p) Hs Hv)).
      change 0 with (inject_Z 0). rewrite <- Zle_Qle.
      change 0%Z with (Qceiling 0). apply Qceiling_resp_le.
      now apply div_nonpos. }
    nra.
  - split; lra.
Qed.

Lemma floorToStep_above_multiple (p : Params) (v m : Q) :
  0 < step p -> 0 <= v -> multiple_of (step p) m -> m <= v ->
  m <= floorToStep p v.
Proof.
  intros Hs Hv Hm Hle.
  destruct (floorToStep_cases p v) as [[_ E] | [_ E]]; rewrite E; [| lra].
  destruct (trunc_nonneg_bounds _ (div_nonneg v (step p) Hs Hv)) as [T1 T2].
  pose proof (mul_div v (step p) Hs) as D.
  assert (R : v - JS.rem v (step p) ==
              step p * inject_Z (JS.trunc (v / step p)))
    by (unfold JS.rem; ring).
  rewrite R. apply multiple_le; [exact Hs | exact Hm | nra].
Qed.

Lemma floorToStep_below_multiple (p : Params) (v m : Q) :
  0 < step p -> v <= 0 -> multiple_of (step p) m -> v <= m ->
  floorToStep p v <= m.
Proof.
  intros Hs Hv Hm Hle.
  destruct (floorToStep_cases p v) as [[_ E] | [_ E]]; rewrite E; [| lra].
  destruct (trunc_nonpos_bounds _ (div_nonpos v (step p) Hs Hv)) as [T1 T2].
  pose proof (mul_div v (step p) Hs) as D.
  assert (R : v - JS.rem v (step p) ==
              step p * inject_Z (JS.trunc (v / step p)))
    by (unfold JS.rem; ring).
  rewrite R. apply multiple_ge; [exact Hs | exact Hm | nra].
Qed.

(** Flooring a value of the range stays in the range when the bounds fit
    the step. *)
Lemma floorToStep_in_range (p : Params) (v : Q) :
  fits_step p -> in_range p v -> in_range p (floorToStep p v).
Proof.
  intros (Hmm & Hs & Hmin & Hmax) [Hl Hu]. unfold in_range.
  destruct (Qlt_le_dec v 0) as [Neg | Pos].
  - assert (Hv : v <= 0) by lra.
    destruct (floorToStep_nonpos p v Hs Hv) as [A B].
    split; [lra |].
    destruct Hmax as [Hmax | Hmax]; [lra |].
    now apply floorToStep_below_multiple.
  - destruct (floorToStep_nonneg p v Hs Pos) as [A B].
    split; [| lra].
    destruct Hmin as [Hmin | Hmin]; [lra |].
    now apply floorToStep_above_multiple.
Qed.

(** ** What each operation leaves alone *)

Lemma core_addEventListener t ty cb s : core (addEventListener t ty cb s) = core s.
Proof.
  unfold addEventListener.
  destruct (in_dec _ _ _); reflexivity.
Qed.

Lemma core_removeEventListener t ty cb s :
  core (removeEventListener t ty cb s) = core s.
Proof. reflexivity. Qed.

Lemma core_action_destroy a s : core (action_destroy a s) = core s.
Proof. destruct a; reflexivity. Qed.

Lemma core_pointerlock s : core (snd (pointerlock s)) = core s.
Proof.
  unfold pointerlock. cbn [snd].
  now rewrite !core_addEventListener.
Qed.

Lemma core_pointercapture s : core (snd (pointercapture s)) = core s.
Proof.
  unfold pointercapture. cbn [snd].
  now rewrite !core_addEventListener.
Qed.

Lemma core_optionsSubscriber o s : core (optionsSubscriber o s) = core s.
Proof.
  unfold optionsSubscriber.
  set (s1 := match Map_get "pointerlock" (actions s) with
             | Some a => action_destroy a s
             | None => s
             end).
  assert (E : core s1 = core s).
  { unfold s1. destruct (Map_get _ _); [apply core_action_destroy | reflexivity]. }
  destruct (lockCursor o).
  - pose proof (core_pointerlock s1) as C.
    destruct (pointerlock s1) as [a s']. cbn [snd] in C.
    change (core s' = core s). congruence.
  - exact E.
Qed.

Lemma core_fold_destroy (acts : list (string * Action)) s :
  core (fold_left (fun s ka => action_destroy (snd ka) s) acts s) = core s.
Proof.
  revert s. induction acts as [| ka acts IH]; intro s; simpl.
  - reflexivity.
  - rewrite IH. apply core_action_destroy.
Qed.

Lemma core_destroy s : core (destroy s) = core s.
Proof.
  unfold destroy.
  rewrite !core_removeEventListener. apply core_fold_destroy.
Qed.

(** A property that every listener call keeps is kept by a dispatch. *)
Lemma dispatch_preserves (P : State -> Prop) (e : DomEvent) :
  (forall cb s, P s -> P (call cb e s)) ->
  forall t ty s, P s -> P (dispatch t ty e s).
Proof.
  intros Hcall t ty s. unfold dispatch.
  generalize (filter (listens t ty) (listeners s)) as ls.
  intro ls. revert s. induction ls as [| l ls IH]; intros s Hs; simpl.
  - exact Hs.
  - apply IH. now apply Hcall.
Qed.

(** A property of the core that every listener call keeps, and that does
    not depend on what the browser and other code change on their own,
    is kept by an event. *)
Lemma fire_preserves (P : State -> Prop) (ev : Event) :
  (forall s s', core s' = core s -> P s -> P s') ->
  (forall cb e s, P s -> P (call cb e s)) ->
  (forall b s, P s -> P (set_pointerLockElement b s)) ->
  (forall c s, P s -> P (set_captured c s)) ->
  (forall p s, ev = EvUpdate p -> P s -> P (update p s)) ->
  (forall st s, P s -> P (set_stores st s)) ->
  forall s, P s -> P (fire s ev).
Proof.
  intros Hcore Hcall Hlock Hcap Hupd Hst s Hs.
  destruct ev; simpl;
    try (apply dispatch_preserves; [intros; now apply Hcall |]);
    auto.
  - apply (Hcore s); [apply core_optionsSubscriber | exact Hs].
  - apply (Hcore s); [apply core_destroy | exact Hs].
Qed.

Lemma run_preserves (P : State -> Prop) :
  (forall ev s, P s -> P (fire s ev)) ->
  forall evs s, P s -> P (run s evs).
Proof.
  intros Hfire evs. unfold run.
  induction evs as [| ev evs IH]; intros s Hs; simpl; auto.
Qed.

Lemma run_app s evs1 evs2 : run s (evs1 ++ evs2) = run (run s evs1) evs2.
Proof. unfold run. apply fold_left_app. Qed.

Lemma core_knobdrag b o p :
  core (knobdrag b o p) =
  (b_captured b, b_pointerLockElement b, b_stores b, [],
   p, max p - min p, space p / (max p - min p), None, false).
Proof.
  unfold knobdrag.
  match goal with |- context [pointercapture ?s0] =>
    pose proof (core_pointercapture s0) as C;
    destruct (pointercapture s0) as [a s']
  end.
  cbn [snd] in C.
  rewrite !core_addEventListener, core_optionsSubscriber.
  exact C.
Qed.

(** ** The two handlers of the knob *)

Lemma knobMove_effective (e : DomEvent) (s : State) :
  effective s e = true ->
  let raw := clamp (min (params s))
                   (accumulated s - scaleMovement s (movementY e))
                   (max (params s)) in
  knobMove e s =
  store_update (valueStore (params s)) (floorToStep (params s) raw)
               (set_rawValue (Some raw) (set_moved true s)).
Proof.
  unfold effective, knobMove. intro E. rewrite E. reflexivity.
Qed.

Lemma knobMove_ineffective (e : DomEvent) (s : State) :
  effective s e = false -> knobMove e s = s.
Proof.
  unfold effective, knobMove. intro E. now rewrite E.
Qed.

Lemma effective_false_iff (s : State) (e : DomEvent) :
  effective s e = false <->
  movementY e == 0 \/
  (hasPointerCapture (pointerId e) s = false /\ pointerLockElement s = false).
Proof.
  unfold effective, hasCapture, JS.truthy.
  rewrite andb_false_iff, negb_false_iff, orb_false_iff.
  now rewrite Qeq_bool_iff.
Qed.

(** The listeners other than [knobMove] and [knobRelease] leave the
    variables of the knob, the stores and the written values alone. *)
Lemma call_other (cb : Callback) (e : DomEvent) (s : State) :
  cb <> KnobMove -> cb <> KnobRelease ->
  let s' := call cb e s in
  params s' = params s /\ range s' = range s /\
  scaleFactor s' = scaleFactor s /\ rawValue s' = rawValue s /\
  moved s' = moved s /\ stores s' = stores s /\
  actions s' = actions s /\ lockCalls s' = lockCalls s /\
  written s' = written s.
Proof.
  intros N1 N2. destruct cb; try congruence; cbn [call];
    unfold pointerDown, preventDefault, stopPropagation, enterLock, exitLock,
           lockChange, setPointerCapture, addEventListener,
           removeEventListener;
    repeat match goal with
           | |- context [if ?c then _ else _] => destruct c
           end;
    repeat split; reflexivity.
Qed.

Lemma call_params (cb : Callback) (e : DomEvent) (s : State) :
  params (call cb e s) = params s /\ range (call cb e s) = range s /\
  scaleFactor (call cb e s) = scaleFactor s.
Proof.
  destruct (Callback_eq_dec cb KnobMove) as [-> | N1].
  - cbn [call]. unfold knobMove.
    destruct (_ && _); repeat split; reflexivity.
  - destruct (Callback_eq_dec cb KnobRelease) as [-> | N2].
    + cbn [call]. unfold knobRelease.
      destruct (moved s); repeat split; reflexivity.
    + pose proof (call_other cb e s N1 N2) as H. cbn zeta in H. tauto.
Qed.

Lemma written_store_update k v s :
  written (store_update k v s) = written s ++ [(k, v)].
Proof. reflexivity. Qed.


Lemma core_fields s s' :
  core s' = core s ->
  captured s' = captured s /\ pointerLockElement s' = pointerLockElement s /\
  stores s' = stores s /\ effects s' = effects s /\ params s' = params s /\
  range s' = range s /\ scaleFactor s' = scaleFactor s /\
  rawValue s' = rawValue s /\ moved s' = moved s.
Proof.
  unfold core. intro H. inversion H. repeat split; assumption.
Qed.

Lemma core_written s s' : core s' = core s -> written s' = written s.
Proof.
  intro H. apply core_fields in H. unfold written.
  destruct H as (_ & _ & _ & E & _). now rewrite E.
Qed.

(** ** Bounded values *)

Lemma fits_step_same (p p' : Params) :
  min p' = min p -> max p' = max p -> step p' = step p ->
  fits_step p -> fits_step p'.
Proof.
  unfold fits_step. intros -> -> ->. trivial.
Qed.

Lemma knobMove_bounded (p : Params) (e : DomEvent) (s : State) :
  fits_step p -> bounded p s -> bounded p (knobMove e s).
Proof.
  intros F (E1 & E2 & E3 & W).
  destruct (effective s e) eqn:Eff.
  - rewrite (knobMove_effective e s Eff). cbv zeta.
    refine (conj E1 (conj E2 (conj E3 _))).
    intros k v. rewrite written_store_update, in_app_iff.
    intros [Old | [New | []]].
    + now apply (W k v).
    + injection New as <- <-.
      assert (F' : fits_step (params s)) by now apply (fits_step_same p).
      assert (R : in_range (params s)
                    (clamp (min (params s))
                           (accumulated s - scaleMovement s (movementY e))
                           (max (params s)))).
      { apply clamp_bounds. apply F'. }
      pose proof (floorToStep_in_range _ _ F' R) as [A B].
      unfold in_range in *. rewrite <- E1, <- E2. now split.
  - rewrite (knobMove_ineffective e s Eff). exact (conj E1 (conj E2 (conj E3 W))).
Qed.

Lemma call_bounded (p : Params) (cb : Callback) (e : DomEvent) (s : State) :
  fits_step p -> bounded p s -> bounded p (call cb e s).
Proof.
  intros F B.
  destruct (Callback_eq_dec cb KnobMove) as [-> | N1];
    [now apply knobMove_bounded |].
  destruct (Callback_eq_dec cb KnobRelease) as [-> | N2].
  - cbn [call]. unfold knobRelease.
    destruct B as (E1 & E2 & E3 & W).
    destruct (moved s); exact (conj E1 (conj E2 (conj E3 W))).
  - pose proof (call_other cb e s N1 N2) as H. cbv zeta in H.
    destruct H as (Ep & _ & _ & _ & _ & _ & _ & _ & Ew).
    destruct B as (E1 & E2 & E3 & W).
    unfold bounded. rewrite Ep, Ew. exact (conj E1 (conj E2 (conj E3 W))).
Qed.

Lemma fire_bounded (p : Params) (ev : Event) (s : State) :
  fits_step p -> keeps_bounds p ev -> bounded p s -> bounded p (fire s ev).
Proof.
  intros F K. apply fire_preserves.
  - intros s1 s2 C (E1 & E2 & E3 & W).
    pose proof (core_written _ _ C) as Ew.
    apply core_fields in C. destruct C as (_ & _ & _ & _ & Ep & _).
    unfold bounded. rewrite Ep, Ew. exact (conj E1 (conj E2 (conj E3 W))).
  - intros cb e s1. now apply call_bounded.
  - intros b s1 B. exact B.
  - intros c s1 B. exact B.
  - intros p' s1 -> (E1 & E2 & E3 & W). simpl in K.
    destruct K as (K1 & K2 & K3). exact (conj K1 (conj K2 (conj K3 W))).
  - intros st s1 B. exact B.
Qed.

Lemma knobdrag_bounded (b : Browser) (o : Options) (p : Params) :
  bounded p (knobdrag b o p).
Proof.
  pose proof (core_knobdrag b o p) as C.
  unfold core in C. injection C as _ _ _ Ee Ep _ _ _ _.
  unfold bounded, written. rewrite Ee, Ep.
  refine (conj eq_refl (conj eq_refl (conj eq_refl _))).
  intros k v [].
Qed.

(** ** The listener list *)

Lemma in_addEventListener t ty cb s l :
  In l (listeners (addEventListener t ty cb s)) <->
  In l (listeners s) \/ l = mkListener t ty cb.
Proof.
  unfold addEventListener.
  destruct (in_dec _ _ _) as [Hin | Hout].
  - split; [now left | intros [H | ->]; assumption].
  - cbn [listeners set_listeners]. rewrite in_app_iff. simpl.
    split.
    + intros [H | [<- | []]]; [now left | now right].
    + intros [H | ->]; [now left | right; now left].
Qed.

Lemma NoDup_addEventListener t ty cb s :
  NoDup (listeners s) -> NoDup (listeners (addEventListener t ty cb s)).
Proof.
  intro N. unfold addEventListener.
  destruct (in_dec _ _ _) as [Hin | Hout]; [exact N |].
  cbn [listeners set_listeners].
  apply NoDup_rev in N. rewrite <- (rev_involutive (_ ++ _)).
  apply NoDup_rev. rewrite rev_app_distr. simpl.
  constructor; [| exact N].
  now rewrite <- in_rev.
Qed.

Lemma in_removeEventListener t ty cb s l :
  In l (listeners (removeEventListener t ty cb s)) <->
  In l (listeners s) /\ l <> mkListener t ty cb.
Proof.
  unfold removeEventListener. cbn [listeners set_listeners]. split.
  - apply in_remove.
  - intros [H N]. now apply in_in_remove.
Qed.

Lemma NoDup_remove_all (x : Listener) (ls : list Listener) :
  NoDup ls -> NoDup (remove Listener_eq_dec x ls).
Proof.
  induction 1 as [| y ls Hy N IH]; simpl.
  - constructor.
  - destruct (Listener_eq_dec x y); [exact IH |].
    constructor; [| exact IH].
    intro H. apply in_remove in H. tauto.
Qed.

Lemma NoDup_removeEventListener t ty cb s :
  NoDup (listeners s) -> NoDup (listeners (removeEventListener t ty cb s)).
Proof. apply NoDup_remove_all. Qed.

Lemma rest_addEventListener t ty cb s :
  actions (addEventListener t ty cb s) = actions s /\
  lockCalls (addEventListener t ty cb s) = lockCalls s.
Proof.
  unfold addEventListener. destruct (in_dec _ _ _); split; reflexivity.
Qed.

(** [wf] looks at the listeners, the [actions] map and the call count
    only. *)
Lemma wf_same s s' :
  listeners s' = listeners s -> actions s' = actions s ->
  lockCalls s' = lockCalls s -> wf s -> wf s'.
Proof.
  intros El Ea Ec [N P L E].
  constructor; rewrite ?El, ?Ea, ?Ec; assumption.
Qed.

(** Removing listeners keeps [wf]. *)
Lemma wf_fewer s s' :
  NoDup (listeners s') ->
  (forall l, In l (listeners s') -> In l (listeners s)) ->
  actions s' = actions s -> lockCalls s' = lockCalls s -> wf s -> wf s'.
Proof.
  intros N' Sub Ea Ec [N P L E].
  constructor; rewrite ?Ea, ?Ec; try assumption.
  - rewrite Forall_forall in *. intros l Hl. apply P. now apply Sub.
  - intros l n Hl. apply L. now apply Sub.
Qed.

Lemma wf_removeEventListener t ty cb s :
  wf s -> wf (removeEventListener t ty cb s).
Proof.
  intro W. apply (wf_fewer s); try reflexivity; [| | exact W].
  - apply NoDup_removeEventListener. apply W.
  - intros l Hl. now apply in_removeEventListener in Hl.
Qed.

(** Adding a listener that is where the code registers it, and is no
    closure of [pointerlock(elem)], keeps [wf]. *)
Lemma wf_addEventListener t ty cb s :
  well_placed (mkListener t ty cb) -> lock_index cb = None ->
  wf s -> wf (addEventListener t ty cb s).
Proof.
  intros Pl Li [N P L E].
  destruct (rest_addEventListener t ty cb s) as [Ea Ec].
  constructor; rewrite ?Ea, ?Ec; try assumption.
  - now apply NoDup_addEventListener.
  - rewrite Forall_forall in *. intros l Hl.
    apply in_addEventListener in Hl. destruct Hl as [Hl | ->]; auto.
  - intros l n Hl Hn. apply in_addEventListener in Hl.
    destruct Hl as [Hl | ->]; [now apply (L l) |].
    cbn [callback] in Hn. congruence.
Qed.

Lemma wf_call cb e s : wf s -> wf (call cb e s).
Proof.
  intro W.
  destruct cb; cbn [call];
    unfold knobMove, knobRelease, pointerDown, preventDefault,
           stopPropagation, enterLock, exitLock, lockChange,
           setPointerCapture;
    repeat match goal with
           | |- context [if ?c then _ else _] => destruct c
           end;
    try exact W;
    try (apply (wf_same s); [reflexivity | reflexivity | reflexivity | exact W]).
  - apply wf_addEventListener; [reflexivity | reflexivity | exact W].
  - now apply wf_removeEventListener.
Qed.

(** ** The actions map *)

Lemma Map_get_set_same k a m : Map_get k (Map_set k a m) = Some a.
Proof.
  induction m as [| [k' a'] m IH]; simpl.
  - now rewrite String.eqb_refl.
  - destruct (String.eqb k k') eqn:E; simpl.
    + now rewrite String.eqb_refl.
    + now rewrite E.
Qed.

Lemma Map_get_set_other k k' a m :
  k <> k' -> Map_get k (Map_set k' a m) = Map_get k m.
Proof.
  intro N. apply String.eqb_neq in N.
  induction m as [| [k'' a''] m IH]; simpl.
  - now rewrite N.
  - destruct (String.eqb k' k'') eqn:E; simpl.
    + apply String.eqb_eq in E. subst k''. now rewrite N.
    + now rewrite IH.
Qed.

Lemma Map_get_delete k m : Map_get k (Map_delete k m) = None.
Proof.
  unfold Map_delete. induction m as [| [k' a'] m IH]; simpl.
  - reflexivity.
  - destruct (String.eqb k k') eqn:E; simpl; [exact IH |].
    now rewrite E.
Qed.

(** ** The invariant is kept *)

Lemma wf_action_destroy a s : wf s -> wf (action_destroy a s).
Proof.
  intro W. destruct a; cbn [action_destroy];
    repeat apply wf_removeEventListener; exact W.
Qed.

Lemma in_action_destroy_lock n s l :
  In l (listeners (action_destroy (PointerLockAction n) s)) <->
  In l (listeners s) /\ ~ In l (lock_listeners n).
Proof.
  cbn [action_destroy]. rewrite !in_removeEventListener.
  unfold lock_listeners. simpl. intuition congruence.
Qed.

Lemma well_placed_lock l n :
  well_placed l -> lock_index (callback l) = Some n -> In l (lock_listeners n).
Proof.
  unfold well_placed, lock_listeners.
  destruct (callback l); simpl; intros Pl Li; try discriminate;
    injection Li as <-; subst l; auto.
Qed.

(** After the first line of the options subscriber no closure of
    [pointerlock(elem)] is registered. *)
Lemma destroy_previous_lock s :
  wf s ->
  let s1 := match Map_get "pointerlock" (actions s) with
            | Some a => action_destroy a s
            | None => s
            end in
  wf s1 /\ no_lock_listener s1 /\
  actions s1 = actions s /\ lockCalls s1 = lockCalls s.
Proof.
  intros W. cbv zeta.
  destruct (Map_get "pointerlock" (actions s)) as [a |] eqn:G.
  - split; [now apply wf_action_destroy |].
    split; [| destruct a; split; reflexivity].
    destruct (wf_entry s W a G) as (n & -> & _).
    intros l Hl. apply in_action_destroy_lock in Hl. destruct Hl as [Hl Hn].
    destruct (lock_index (callback l)) as [m |] eqn:Li; [| reflexivity].
    pose proof (wf_lock s W l m Hl Li) as G'.
    rewrite G in G'. injection G' as <-.
    exfalso. apply Hn. apply well_placed_lock; [| exact Li].
    pose proof (wf_placed s W) as P. rewrite Forall_forall in P. now apply P.
  - split; [exact W |]. split; [| split; reflexivity].
    intros l Hl.
    destruct (lock_index (callback l)) as [m |] eqn:Li; [| reflexivity].
    pose proof (wf_lock s W l m Hl Li) as G'. congruence.
Qed.

Lemma in_pointerlock s l :
  In l (listeners (snd (pointerlock s))) <->
  In l (listeners s) \/ In l (lock_listeners (lockCalls s)).
Proof.
  unfold pointerlock. cbn [snd]. rewrite !in_addEventListener.
  unfold lock_listeners. cbn [listeners set_lockCalls In].
  intuition congruence.
Qed.

Lemma rest_pointerlock s :
  fst (pointerlock s) = PointerLockAction (lockCalls s) /\
  actions (snd (pointerlock s)) = actions s /\
  lockCalls (snd (pointerlock s)) = S (lockCalls s).
Proof.
  unfold pointerlock. cbn [fst snd]. split; [reflexivity |].
  repeat match goal with
         | |- context [addEventListener ?t ?ty ?cb ?s'] =>
             let H := fresh in
             destruct (rest_addEventListener t ty cb s') as [H H'];
             rewrite ?H, ?H'; clear H H'
         end.
  split; reflexivity.
Qed.

Lemma NoDup_pointerlock s :
  NoDup (listeners s) -> NoDup (listeners (snd (pointerlock s))).
Proof.
  intro N. unfold pointerlock. cbn [snd].
  repeat apply NoDup_addEventListener. exact N.
Qed.

Lemma in_lock_listeners l n :
  In l (lock_listeners n) ->
  well_placed l /\ lock_index (callback l) = Some n.
Proof.
  unfold lock_listeners. simpl.
  intros [<- | [<- | [<- | []]]]; split; reflexivity.
Qed.

Lemma wf_optionsSubscriber o s : wf s -> wf (optionsSubscriber o s).
Proof.
  intro W. unfold optionsSubscriber.
  destruct (destroy_previous_lock s W) as (W1 & NL & Ea & Ec).
  cbv zeta in W1, NL, Ea, Ec.
  set (s1 := match Map_get "pointerlock" (actions s) with
             | Some a => action_destroy a s
             | None => s
             end) in *.
  destruct (lockCursor o).
  - pose proof (in_pointerlock s1) as Hin.
    pose proof (NoDup_pointerlock s1 (wf_nodup s1 W1)) as Hnd.
    destruct (rest_pointerlock s1) as (Ha & Hact & Hcalls).
    destruct (pointerlock s1) as [a s2]. cbn [fst snd] in *. subst a.
    constructor; cbn [listeners actions lockCalls set_actions].
    + exact Hnd.
    + rewrite Forall_forall. intros l Hl. apply Hin in Hl.
      destruct Hl as [Hl | Hl].
      * pose proof (wf_placed s1 W1) as P. rewrite Forall_forall in P. auto.
      * now apply in_lock_listeners in Hl.
    + intros l n Hl Li. rewrite Map_get_set_same. apply Hin in Hl.
      destruct Hl as [Hl | Hl].
      * rewrite (NL l Hl) in Li. discriminate.
      * apply in_lock_listeners in Hl. destruct Hl as [_ Li']. congruence.
    + intros a. rewrite Map_get_set_same. intro E. injection E as <-.
      exists (lockCalls s1). split; [reflexivity |]. rewrite Hcalls. lia.
  - constructor; cbn [listeners actions lockCalls set_actions].
    + apply W1.
    + apply W1.
    + intros l n Hl Li. rewrite (NL l Hl) in Li. discriminate.
    + intros a. rewrite Map_get_delete. discriminate.
Qed.

Lemma wf_fold_destroy (acts : list (string * Action)) s :
  wf s -> wf (fold_left (fun s ka => action_destroy (snd ka) s) acts s).
Proof.
  revert s. induction acts as [| ka acts IH]; intros s W; simpl.
  - exact W.
  - apply IH. now apply wf_action_destroy.
Qed.

Lemma wf_destroy s : wf s -> wf (destroy s).
Proof.
  intro W. unfold destroy.
  repeat apply wf_removeEventListener. now apply wf_fold_destroy.
Qed.

Lemma wf_dispatch t ty e s : wf s -> wf (dispatch t ty e s).
Proof.
  apply (dispatch_preserves wf). intros cb s'. apply wf_call.
Qed.

Lemma wf_fire ev s : wf s -> wf (fire s ev).
Proof.
  intro W. destruct ev; cbn [fire]; try (now apply wf_dispatch).
  - apply wf_dispatch.
    apply (wf_same s); [reflexivity | reflexivity | reflexivity | exact W].
  - apply (wf_same s); [reflexivity | reflexivity | reflexivity | exact W].
  - now apply wf_optionsSubscriber.
  - apply (wf_same s); [reflexivity | reflexivity | reflexivity | exact W].
  - now apply wf_destroy.
  - apply (wf_same s); [reflexivity | reflexivity | reflexivity | exact W].
Qed.

Lemma wf_knobdrag b o p : foreign_browser b -> wf (knobdrag b o p).
Proof.
  intros [N F]. unfold knobdrag.
  set (s0 := mkState _ _ _ _ _ _ _ _ _ _ _ _).
  assert (W0 : wf s0).
  { constructor; cbn [listeners actions lockCalls s0].
    - exact N.
    - rewrite Forall_forall in *. intros l Hl. specialize (F l Hl).
      unfold is_foreign in F. unfold well_placed.
      destruct (callback l); tauto.
    - rewrite Forall_forall in F. intros l n Hl Li. specialize (F l Hl).
      unfold is_foreign in F. destruct (callback l); try tauto; discriminate.
    - intros a E. discriminate E. }
  unfold pointercapture.
  repeat (apply wf_addEventListener; [reflexivity | reflexivity |]).
  apply wf_optionsSubscriber.
  set (s1 := addEventListener Elem "touchmove" PreventDefault _).
  assert (W1 : wf s1).
  { unfold s1.
    repeat (apply wf_addEventListener; [reflexivity | reflexivity |]).
    exact W0. }
  destruct W1 as [N1 P1 L1 E1].
  constructor; cbn [listeners actions lockCalls set_actions]; try assumption.
  - intros l n Hl Li. rewrite Map_get_set_other by discriminate.
    now apply (L1 l).
  - intros a. rewrite Map_get_set_other by discriminate. apply E1.
Qed.

Lemma wf_run evs s : wf s -> wf (run s evs).
Proof.
  apply (run_preserves wf). intros ev s'. apply wf_fire.
Qed.

(** ** The options subscriber *)

Lemma in_optionsSubscriber o s l :
  In l (listeners (optionsSubscriber o s)) <->
  In l (listeners match Map_get "pointerlock" (actions s) with
                  | Some a => action_destroy a s
                  | None => s
                  end) \/
  (lockCursor o = true /\
   In l (lock_listeners
           (lockCalls match Map_get "pointerlock" (actions s) with
                      | Some a => action_destroy a s
                      | None => s
                      end))).
Proof.
  unfold optionsSubscriber.
  set (s1 := match Map_get "pointerlock" (actions s) with
             | Some a => action_destroy a s
             | None => s
             end).
  destruct (lockCursor o).
  - pose proof (in_pointerlock s1 l) as Hin.
    destruct (pointerlock s1) as [a s2]. cbn [snd] in Hin.
    cbn [listeners set_actions]. rewrite Hin. tauto.
  - cbn [listeners set_actions]. intuition discriminate.
Qed.

Lemma entry_optionsSubscriber o s :
  Map_get "pointerlock" (actions (optionsSubscriber o s)) =
  if lockCursor o
  then Some (PointerLockAction
               (lockCalls match Map_get "pointerlock" (actions s) with
                          | Some a => action_destroy a s
                          | None => s
                          end))
  else None.
Proof.
  unfold optionsSubscriber.
  set (s1 := match Map_get "pointerlock" (actions s) with
             | Some a => action_destroy a s
             | None => s
             end).
  destruct (lockCursor o).
  - destruct (rest_pointerlock s1) as (Ha & _ & _).
    destruct (pointerlock s1) as [a s2]. cbn [fst] in Ha. subst a.
    cbn [actions set_actions]. apply Map_get_set_same.
  - cbn [actions set_actions]. apply Map_get_delete.
Qed.

(** What holds after the options subscriber has run with [o] on a state
    that satisfies the invariant. *)
Lemma optionsSubscriber_governs o s :
  wf s ->
  let s' := optionsSubscriber o s in
  (Map_get "pointerlock" (actions s') <> None <-> lockCursor o = true) /\
  (lockCursor o = true ->
   exists n,
     Map_get "pointerlock" (actions s') = Some (PointerLockAction n) /\
     (forall l, In l (lock_listeners n) -> In l (listeners s')) /\
     (forall l m, In l (listeners s') ->
                  lock_index (callback l) = Some m -> m = n)) /\
  (lockCursor o = false -> no_lock_listener s') /\
  (forall m, Map_get "pointerlock" (actions s) = Some (PointerLockAction m) ->
             forall l, In l (lock_listeners m) -> ~ In l (listeners s')).
Proof.
  intros W. cbv zeta.
  destruct (destroy_previous_lock s W) as (W1 & NL & Ea & Ec).
  cbv zeta in W1, NL, Ea, Ec.
  pose proof (entry_optionsSubscriber o s) as En.
  pose proof (in_optionsSubscriber o s) as Hin.
  set (s1 := match Map_get "pointerlock" (actions s) with
             | Some a => action_destroy a s
             | None => s
             end) in *.
  split; [| split; [| split]].
  - rewrite En. destruct (lockCursor o); split; congruence.
  - intro L. rewrite L in En. exists (lockCalls s1).
    split; [exact En |]. split.
    + intros l Hl. apply Hin. right. now split.
    + intros l m Hl Li. apply Hin in Hl. destruct Hl as [Hl | [_ Hl]].
      * rewrite (NL l Hl) in Li. discriminate.
      * apply in_lock_listeners in Hl. destruct Hl as [_ Li']. congruence.
  - intros L l Hl. apply Hin in Hl. destruct Hl as [Hl | [L' _]].
    + now apply NL.
    + congruence.
  - intros m G l Hm Hl.
    destruct (wf_entry s W _ G) as (n & E & Lt). injection E as <-.
    apply in_lock_listeners in Hm. destruct Hm as [_ Li].
    apply Hin in Hl. destruct Hl as [Hl | [_ Hl]].
    + rewrite (NL l Hl) in Li. discriminate.
    + apply in_lock_listeners in Hl. destruct Hl as [_ Li'].
      rewrite Ec in Li'. rewrite Li in Li'. injection Li' as ->. lia.
Qed.

(** ** Which listeners an event reaches *)

Lemma listens_true t ty l :
  listens t ty l = true <-> target l = t /\ type l = ty.
Proof.
  unfold listens. rewrite andb_true_iff, String.eqb_eq.
  destruct (Target_eq_dec (target l) t); intuition congruence.
Qed.

(** A listener of the attachment hears only the event it was registered
    for. *)
Lemma listening_callback t ty l :
  well_placed l -> listens t ty l = true ->
  l = mkListener t ty (callback l) /\
  match callback l with
  | KnobMove => t = Elem /\ ty = "pointermove"%string
  | KnobRelease => t = Elem /\ ty = "pointerup"%string
  | PointerDown => t = Elem /\ ty = "pointerdown"%string
  | PreventDefault => t = Elem /\ ty = "touchmove"%string
  | StopPropagation => t = Elem /\ ty = "pointermove"%string
  | EnterLock _ => t = Elem /\ ty = "mousedown"%string
  | ExitLock _ => t = Elem /\ ty = "mouseup"%string
  | LockChange _ => t = Document /\ ty = "pointerlockchange"%string
  | Foreign _ => True
  end.
Proof.
  intros Pl Li. apply listens_true in Li. destruct Li as [<- <-].
  split; [now destruct l |].
  unfold well_placed in Pl.
  destruct (callback l); try exact I; rewrite Pl; split; reflexivity.
Qed.

(** Calling listeners of which at most [l0] does anything. *)
Lemma fold_one (e : DomEvent) (l0 : Listener) (ls : list Listener) :
  NoDup ls ->
  (forall l, In l ls -> l <> l0 -> forall s, call (callback l) e s = s) ->
  forall s,
    fold_left (fun s l => call (callback l) e s) ls s =
    if in_dec Listener_eq_dec l0 ls then call (callback l0) e s else s.
Proof.
  induction 1 as [| l ls Hl N IH]; intros Inert s.
  - reflexivity.
  - cbn [fold_left].
    assert (Inert' : forall l', In l' ls -> l' <> l0 ->
                       forall s, call (callback l') e s = s).
    { intros l' Hl'. apply Inert. now right. }
    rewrite (IH Inert').
    destruct (Listener_eq_dec l l0) as [-> | Ne].
    + destruct (in_dec Listener_eq_dec l0 ls) as [Hin | _]; [contradiction |].
      destruct (in_dec Listener_eq_dec l0 (l0 :: ls)) as [_ | Hout];
        [reflexivity | exfalso; apply Hout; now left].
    + rewrite (Inert l (or_introl eq_refl) Ne).
      destruct (in_dec Listener_eq_dec l0 ls) as [Hin | Hout];
        destruct (in_dec Listener_eq_dec l0 (l :: ls)) as [Hin' | Hout'];
        try reflexivity.
      * exfalso. apply Hout'. now right.
      * exfalso. destruct Hin' as [E | Hin']; [congruence | contradiction].
Qed.

Lemma dispatch_one t ty cb0 e s :
  wf s ->
  (forall l, In l (listeners s) -> listens t ty l = true ->
             l <> mkListener t ty cb0 ->
             forall s', call (callback l) e s' = s') ->
  dispatch t ty e s =
  if in_dec Listener_eq_dec (mkListener t ty cb0) (listeners s)
  then call cb0 e s else s.
Proof.
  intros W Inert. unfold dispatch.
  rewrite (fold_one e (mkListener t ty cb0)).
  - assert (L0 : listens t ty (mkListener t ty cb0) = true).
    { apply listens_true. split; reflexivity. }
    destruct (in_dec _ _ (filter _ _)) as [Hin | Hout];
      destruct (in_dec _ _ (listeners s)) as [Hin' | Hout'];
      try reflexivity.
    + apply filter_In in Hin. tauto.
    + exfalso. apply Hout. apply filter_In. now split.
  - apply NoDup_filter. apply W.
  - intros l Hl. apply filter_In in Hl. destruct Hl as [Hl Li].
    now apply Inert.
Qed.

Lemma placed s l : wf s -> In l (listeners s) -> well_placed l.
Proof.
  intros W Hl. pose proof (wf_placed s W) as P.
  rewrite Forall_forall in P. now apply P.
Qed.

(** A pointermove reaches [knobMove] while it is registered, and nothing
    else that acts. *)
Lemma fire_pointermove s e :
  wf s ->
  fire s (EvPointerMove e) =
  if in_dec Listener_eq_dec (mkListener Elem "pointermove" KnobMove)
            (listeners s)
  then knobMove e s else s.
Proof.
  intro W. cbn [fire]. apply (dispatch_one Elem "pointermove" KnobMove e s W).
  intros l Hl Li Ne s'.
  destruct (listening_callback _ _ l (placed s l W Hl) Li) as [El C].
  destruct (callback l); try reflexivity;
    try (destruct C as [_ C]; discriminate C).
  congruence.
Qed.

(** A pointerup reaches [knobRelease] while it is registered. *)
Lemma fire_pointerup s e :
  wf s ->
  fire s (EvPointerUp e) =
  if in_dec Listener_eq_dec (mkListener Elem "pointerup" KnobRelease)
            (listeners s)
  then knobRelease e s else s.
Proof.
  intro W. cbn [fire]. apply (dispatch_one Elem "pointerup" KnobRelease e s W).
  intros l Hl Li Ne s'.
  destruct (listening_callback _ _ l (placed s l W Hl) Li) as [El C].
  destruct (callback l); try reflexivity;
    try (destruct C as [_ C]; discriminate C).
  congruence.
Qed.

(** An event of another type reaches neither [knobMove] nor
    [knobRelease]. *)
Lemma dispatch_elsewhere t ty e s :
  wf s ->
  ty <> "pointermove"%string -> ty <> "pointerup"%string ->
  knobvars (dispatch t ty e s) = knobvars s.
Proof.
  intros W N1 N2. unfold dispatch.
  assert (H : forall l, In l (filter (listens t ty) (listeners s)) ->
                callback l <> KnobMove /\ callback l <> KnobRelease).
  { intros l Hl. apply filter_In in Hl. destruct Hl as [Hl Li].
    destruct (listening_callback _ _ l (placed s l W Hl) Li) as [_ C].
    destruct (callback l); split; try discriminate; tauto. }
  revert H. generalize (filter (listens t ty) (listeners s)) as ls.
  intro ls. clear W. revert s.
  induction ls as [| l ls IH]; intros s H; cbn [fold_left].
  - reflexivity.
  - rewrite IH by (intros l' Hl'; apply H; now right).
    destruct (H l (or_introl eq_refl)) as [M1 M2].
    pose proof (call_other (callback l) e s M1 M2) as C. cbv zeta in C.
    destruct C as (E1 & E2 & E3 & E4 & E5 & E6 & _ & _ & Ew).
    unfold knobvars. now rewrite E1, E2, E3, E4, E5, E6, Ew.
Qed.

(** ** Registration of the two handlers *)

Lemma call_keeps_listener l cb e s :
  l <> mkListener Elem "pointermove" StopPropagation ->
  In l (listeners s) -> In l (listeners (call cb e s)).
Proof.
  intros Ne Hl.
  destruct cb; cbn [call];
    unfold knobMove, knobRelease, pointerDown, preventDefault,
           stopPropagation, enterLock, exitLock, lockChange,
           setPointerCapture;
    repeat match goal with
           | |- context [if ?c then _ else _] => destruct c
           end;
    try exact Hl.
  - apply in_addEventListener. now left.
  - apply in_removeEventListener. now split.
Qed.

Lemma dispatch_keeps_listener l t ty e s :
  l <> mkListener Elem "pointermove" StopPropagation ->
  In l (listeners s) -> In l (listeners (dispatch t ty e s)).
Proof.
  intro Ne.
  apply (dispatch_preserves (fun s => In l (listeners s))).
  intros cb s'. now apply call_keeps_listener.
Qed.

Lemma action_destroy_keeps_listener l a s :
  callback l = KnobMove \/ callback l = KnobRelease ->
  In l (listeners s) -> In l (listeners (action_destroy a s)).
Proof.
  intros C Hl. destruct a; cbn [action_destroy];
    rewrite !in_removeEventListener;
    repeat split; try exact Hl;
    intros ->; cbn [callback] in C; destruct C; discriminate.
Qed.

Lemma optionsSubscriber_keeps_listener l o s :
  callback l = KnobMove \/ callback l = KnobRelease ->
  In l (listeners s) -> In l (listeners (optionsSubscriber o s)).
Proof.
  intros C Hl. unfold optionsSubscriber.
  set (s1 := match Map_get "pointerlock" (actions s) with
             | Some a => action_destroy a s
             | None => s
             end).
  assert (H1 : In l (listeners s1)).
  { unfold s1. destruct (Map_get _ _);
      [now apply action_destroy_keeps_listener | exact Hl]. }
  destruct (lockCursor o); [| exact H1].
  pose proof (in_pointerlock s1 l) as Hin.
  destruct (pointerlock s1) as [a s2]. cbn [snd] in Hin.
  cbn [listeners set_actions]. apply Hin. now left.
Qed.

Lemma fold_destroy_keeps_listener l (acts : list (string * Action)) s :
  callback l = KnobMove \/ callback l = KnobRelease ->
  In l (listeners s) ->
  In l (listeners (fold_left (fun s ka => action_destroy (snd ka) s) acts s)).
Proof.
  intro C. revert s. induction acts as [| ka acts IH]; intros s Hl; simpl.
  - exact Hl.
  - apply IH. now apply action_destroy_keeps_listener.
Qed.

(** [knobRelease] stays registered whatever happens, [destroy]
    included. *)
Lemma fire_keeps_knobRelease ev s :
  In knobRelease_listener (listeners s) ->
  In knobRelease_listener (listeners (fire s ev)).
Proof.
  intro Hl.
  destruct ev; cbn [fire];
    try (apply dispatch_keeps_listener; [discriminate | exact Hl]);
    try exact Hl.
  - apply optionsSubscriber_keeps_listener; [now right | exact Hl].
  - unfold destroy. rewrite !in_removeEventListener.
    repeat split; try discriminate.
    apply fold_destroy_keeps_listener; [now right | exact Hl].
Qed.

(** [knobMove] stays registered until [destroy]. *)
Lemma fire_keeps_knobMove ev s :
  is_destroy ev = false ->
  In knobMove_listener (listeners s) ->
  In knobMove_listener (listeners (fire s ev)).
Proof.
  intros Nd Hl.
  destruct ev; cbn [fire]; try discriminate Nd;
    try (apply dispatch_keeps_listener; [discriminate | exact Hl]);
    try exact Hl.
  apply optionsSubscriber_keeps_listener; [now left | exact Hl].
Qed.

Lemma attached_knobdrag b o p : foreign_browser b -> attached (knobdrag b o p).
Proof.
  intro F. split; [now apply wf_knobdrag |].
  unfold knobdrag. destruct (pointercapture _) as [a s].
  split.
  - apply in_addEventListener. left. apply in_addEventListener. now right.
  - apply in_addEventListener. now right.
Qed.

Lemma attached_fire ev s :
  is_destroy ev = false -> attached s -> attached (fire s ev).
Proof.
  intros Nd (W & M & R). split; [now apply wf_fire |].
  split; [now apply fire_keeps_knobMove | now apply fire_keeps_knobRelease].
Qed.

Lemma attached_run evs s :
  existsb is_destroy evs = false -> attached s -> attached (run s evs).
Proof.
  revert s. unfold run.
  induction evs as [| ev evs IH]; intros s Nd A; simpl.
  - exact A.
  - simpl in Nd. apply orb_false_iff in Nd. destruct Nd as [Nd1 Nd2].
    apply IH; [exact Nd2 | now apply attached_fire].
Qed.

Lemma attached_pointermove s e :
  attached s -> fire s (EvPointerMove e) = knobMove e s.
Proof.
  intros (W & M & _). rewrite (fire_pointermove s e W).
  destruct (in_dec _ _ _); [reflexivity | contradiction].
Qed.

Lemma attached_pointerup s e :
  attached s -> fire s (EvPointerUp e) = knobRelease e s.
Proof.
  intros (W & _ & R). rewrite (fire_pointerup s e W).
  destruct (in_dec _ _ _); [reflexivity | contradiction].
Qed.

Lemma core_knobvars s s' : core s' = core s -> knobvars s' = knobvars s.
Proof.
  intro C. pose proof (core_written _ _ C) as Ew.
  apply core_fields in C.
  destruct C as (_ & _ & Es & _ & Ep & Er & Ef & Ew' & Em).
  unfold knobvars. now rewrite Es, Ep, Er, Ef, Ew', Em, Ew.
Qed.

(** Events that reach neither handler of the knob, and neither replace
    the params nor write a store, leave the variables of the knob, the
    stores and the written values as they are. *)
Lemma fire_elsewhere ev s :
  wf s ->
  match ev with
  | EvPointerMove _ | EvPointerUp _ | EvUpdate _ | EvStoreSet _ _ => True
  | _ => knobvars (fire s ev) = knobvars s
  end.
Proof.
  intro W.
  destruct ev as [e | e | e | e | e | e | locked | pid | o | p | | k v];
    try exact I; cbn [fire];
    try (apply dispatch_elsewhere; [exact W | discriminate | discriminate]).
  - change (knobvars s) with (knobvars (set_pointerLockElement locked s)).
    apply dispatch_elsewhere; [| discriminate | discriminate].
    apply (wf_same s); [reflexivity | reflexivity | reflexivity | exact W].
  - reflexivity.
  - apply core_knobvars, core_optionsSubscriber.
  - apply core_knobvars, core_destroy.
Qed.

(** Only a pointermove changes [rawValue]. *)
Lemma fire_rawValue ev s :
  wf s ->
  match ev with EvPointerMove _ => True
           | _ => rawValue (fire s ev) = rawValue s end.
Proof.
  intro W. pose proof (fire_elsewhere ev s W) as K.
  destruct ev as [e | e | e | e | e | e | locked | pid | o | p | | k v];
    try exact I; try reflexivity;
    try (unfold knobvars in K; now injection K).
  rewrite (fire_pointerup s e W).
  destruct (in_dec _ _ _); [| reflexivity].
  unfold knobRelease. now destruct (moved s).
Qed.

(** Only a pointermove and a pointerup change [moved]. *)
Lemma fire_moved ev s :
  wf s ->
  match ev with EvPointerMove _ | EvPointerUp _ => True
           | _ => moved (fire s ev) = moved s end.
Proof.
  intro W. pose proof (fire_elsewhere ev s W) as K.
  destruct ev as [e | e | e | e | e | e | locked | pid | o | p | | k v];
    try exact I; try reflexivity;
    unfold knobvars in K; now injection K.
Qed.

(** ** The scale is fixed at attachment *)

Lemma fire_scale ev s :
  range (fire s ev) = range s /\ scaleFactor (fire s ev) = scaleFactor s.
Proof.
  apply (fire_preserves
           (fun s' => range s' = range s /\ scaleFactor s' = scaleFactor s)).
  - intros s1 s2 C [E1 E2]. apply core_fields in C.
    destruct C as (_ & _ & _ & _ & _ & Er & Ef & _). split; congruence.
  - intros cb e s1 [E1 E2].
    destruct (call_params cb e s1) as (_ & Er & Ef). split; congruence.
  - intros b s1 H. exact H.
  - intros c s1 H. exact H.
  - intros p s1 _ H. exact H.
  - intros st s1 H. exact H.
  - split; reflexivity.
Qed.

Lemma run_scale evs s :
  range (run s evs) = range s /\ scaleFactor (run s evs) = scaleFactor s.
Proof.
  revert s. unfold run. induction evs as [| ev evs IH]; intro s; simpl.
  - split; reflexivity.
  - destruct (IH (fire s ev)) as [E1 E2].
    destruct (fire_scale ev s) as [F1 F2]. split; congruence.
Qed.

Lemma knobdrag_scale b o p :
  range (knobdrag b o p) = max p - min p /\
  scaleFactor (knobdrag b o p) = space p / (max p - min p).
Proof.
  pose proof (core_knobdrag b o p) as C. unfold core in C.
  injection C as _ _ _ _ _ Er Ef _ _. now split.
Qed.

(** ** The moved flag *)

Lemma snoc_split {A : Type} (xs pre post : list A) (x y : A) :
  xs ++ [x] = pre ++ y :: post ->
  (post = [] /\ pre = xs /\ y = x) \/
  (exists post', post = post' ++ [x] /\ xs = pre ++ y :: post').
Proof.
  intro E. induction post as [| z post' _] using rev_ind.
  - left. apply app_inj_tail in E. destruct E as [-> ->]. auto.
  - right. exists post'.
    change (pre ++ y :: post' ++ [z]) with (pre ++ (y :: post') ++ [z]) in E.
    rewrite app_assoc in E. apply app_inj_tail in E.
    destruct E as [-> ->]. auto.
Qed.

Lemma moved_since_release_snoc (s0 : State) (evs : list Event) (ev : Event) :
  is_pointerup ev = false ->
  (forall e, ev = EvPointerMove e -> effective (run s0 evs) e = false) ->
  moved_since_release s0 (evs ++ [ev]) <-> moved_since_release s0 evs.
Proof.
  intros Nup Neff. split.
  - intros (pre & e & post & E & Eff & Up).
    apply snoc_split in E. destruct E as [(-> & -> & E) | (post' & -> & ->)].
    + symmetry in E. rewrite (Neff e E) in Eff. discriminate.
    + exists pre, e, post'. split; [reflexivity |]. split; [exact Eff |].
      rewrite existsb_app in Up. now apply orb_false_iff in Up.
  - intros (pre & e & post & -> & Eff & Up).
    exists pre, e, (post ++ [ev]). split; [| split; [exact Eff |]].
    + now rewrite <- app_assoc.
    + rewrite existsb_app, Up. simpl. now rewrite Nup.
Qed.

Lemma moved_since_release_pointerup (s0 : State) (evs : list Event) e :
  ~ moved_since_release s0 (evs ++ [EvPointerUp e]).
Proof.
  intros (pre & e' & post & E & Eff & Up).
  apply snoc_split in E. destruct E as [(_ & _ & E) | (post' & -> & _)].
  - discriminate E.
  - rewrite existsb_app in Up. simpl in Up.
    rewrite orb_true_r in Up. discriminate.
Qed.

(** ** The accumulated raw value *)

Lemma div_div (a b c : Q) : a / (b / c) == a * c / b.
Proof.
  unfold Qdiv. rewrite Qinv_mult_distr, Qinv_involutive. ring.
Qed.

Lemma quiet_rawValue (evs : list Event) (s : State) :
  wf s -> rawValue s = None -> no_effective_move s evs ->
  rawValue (run s evs) = None.
Proof.
  revert s. unfold run.
  induction evs as [| ev evs IH]; intros s W R Q; simpl.
  - exact R.
  - destruct Q as [Qev Q]. apply IH; [now apply wf_fire | | exact Q].
    pose proof (fire_rawValue ev s W) as F.
    destruct ev; try (rewrite F; exact R).
    rewrite (fire_pointermove s e W).
    destruct (in_dec _ _ _); [| exact R].
    now rewrite (knobMove_ineffective e s Qev).
Qed.

(** ** Attach, then destroy *)

Lemma foreign_not_own (b : Browser) (l : Listener) :
  foreign_browser b -> In l (b_listeners b) -> is_foreign l.
Proof.
  intros [_ F] Hl. rewrite Forall_forall in F. now apply F.
Qed.

Lemma actions_optionsSubscriber_fresh o s :
  Map_get "pointerlock" (actions s) = None ->
  actions (optionsSubscriber o s) =
  if lockCursor o
  then Map_set "pointerlock" (PointerLockAction (lockCalls s)) (actions s)
  else Map_delete "pointerlock" (actions s).
Proof.
  intro G. unfold optionsSubscriber. rewrite G.
  destruct (lockCursor o); [| reflexivity].
  destruct (rest_pointerlock s) as (Ha & Hact & _).
  destruct (pointerlock s) as [a s2]. cbn [fst snd] in *. subst a.
  cbn [actions set_actions]. now rewrite Hact.
Qed.

Lemma actions_knobdrag b o p :
  actions (knobdrag b o p) =
  if lockCursor o
  then [("pointercapture"%string, PointerCaptureAction);
        ("pointerlock"%string, PointerLockAction 0)]
  else [("pointercapture"%string, PointerCaptureAction)].
Proof.
  unfold knobdrag, pointercapture.
  repeat match goal with
         | |- context [actions (addEventListener ?t ?ty ?cb ?x)] =>
             destruct (rest_addEventListener t ty cb x) as [-> _]
         end.
  rewrite actions_optionsSubscriber_fresh.
  - cbn [actions set_actions lockCalls].
    repeat match goal with
           | |- context [actions (addEventListener ?t ?ty ?cb ?x)] =>
               destruct (rest_addEventListener t ty cb x) as [-> _]
           | |- context [lockCalls (addEventListener ?t ?ty ?cb ?x)] =>
               destruct (rest_addEventListener t ty cb x) as [_ ->]
           end.
    destruct (lockCursor o); reflexivity.
  - cbn [actions set_actions].
    repeat match goal with
           | |- context [actions (addEventListener ?t ?ty ?cb ?x)] =>
               destruct (rest_addEventListener t ty cb x) as [-> _]
           end.
    reflexivity.
Qed.

Lemma in_knobdrag b o p l :
  In l (listeners (knobdrag b o p)) <->
  In l (b_listeners b) \/
  l = mkListener Elem "pointerdown" PointerDown \/
  l = mkListener Elem "touchmove" PreventDefault \/
  (lockCursor o = true /\ In l (lock_listeners 0)) \/
  l = knobMove_listener \/ l = knobRelease_listener.
Proof.
  unfold knobdrag, pointercapture.
  rewrite !in_addEventListener, in_optionsSubscriber.
  cbn [actions set_actions lockCalls].
  repeat match goal with
         | |- context [actions (addEventListener ?t ?ty ?cb ?x)] =>
             destruct (rest_addEventListener t ty cb x) as [-> _]
         end.
  cbn [actions Map_set Map_get String.eqb Ascii.eqb Bool.eqb].
  cbn [listeners set_actions lockCalls].
  repeat match goal with
         | |- context [lockCalls (addEventListener ?t ?ty ?cb ?x)] =>
             destruct (rest_addEventListener t ty cb x) as [_ ->]
         end.
  rewrite !in_addEventListener. cbn [listeners lockCalls].
  unfold knobMove_listener, knobRelease_listener. tauto.
Qed.

(** * The claims *)

(** C1 (amended).  For an attachment whose params satisfy
    [0 <= min <= max], [step > 0] and [space <> 0] and whose [min] is an
    integer multiple of [step], every value that [knobMove] writes to a
    value store, over any sequence of events in which no [update] changes
    [min], [max] or [step], lies within [[min, max]]. *)
Theorem written_values_in_range (b : Browser) (o : Options) (p : Params)
    (evs : list Event) :
  on_grid p ->
  Forall (keeps_bounds p) evs ->
  forall k v, In (k, v) (written (run (knobdrag b o p) evs)) -> in_range p v.
Proof.
  intros (Hmin & Hmm & Hs & Hgrid & Hsp) K.
  assert (F : fits_step p).
  { split; [exact Hmm |]. split; [exact Hs |].
    split; [now right | left; lra]. }
  assert (B : bounded p (run (knobdrag b o p) evs)).
  { generalize (knobdrag_bounded b o p).
    generalize (knobdrag b o p) as s.
    unfold run. induction K as [| ev evs Kev _ IH]; intros s B; simpl.
    - exact B.
    - apply IH. now apply fire_bounded. }
  apply B.
Qed.

Lemma written_values_in_range_witness :
  in_range (mkParams 0 10 1 100 0 0) (70000 # 10000).
Proof.
  apply (written_values_in_range
           (mkBrowser [] [] false (fun _ => 5)) (mkOptions false)
           (mkParams 0 10 1 100 0 0)
           [EvPointerDown (mkDomEvent 0 1 0);
            EvPointerMove (mkDomEvent (-25) 1 0)]) with (k := 0%nat).
  - unfold on_grid; simpl.
    split; [discriminate |]. split; [discriminate |].
    split; [reflexivity |]. split; [exists 0%Z; reflexivity | discriminate].
  - repeat constructor.
  - vm_compute. left. reflexivity.
Defined.

(** C1 as stated fails: with [min = 1], [max = 10], [step = 3] a drag
    down from 1 writes 0, below [min]; with [min = -10], [max = -1],
    [step = 3] a drag up from -1 writes 0, above [max]. *)
Lemma written_value_out_of_range :
  (let p := mkParams 1 10 3 9 0 0 in
   let s0 := knobdrag (mkBrowser [] [] false (fun _ => 1)) (mkOptions false) p in
   let s1 := fire s0 (EvPointerDown (mkDomEvent 0 1 0)) in
   let s2 := fire s1 (EvPointerMove (mkDomEvent 5 1 0)) in
   min p <= max p /\ 0 < step p /\
   effective s1 (mkDomEvent 5 1 0) = true /\
   exists v, written s2 = [(0%nat, v)] /\ v == 0 /\ ~ in_range p v) /\
  (let p := mkParams (-10) (-1) 3 9 0 0 in
   let s0 := knobdrag (mkBrowser [] [] false (fun _ => -1)) (mkOptions false) p in
   let s1 := fire s0 (EvPointerDown (mkDomEvent 0 1 0)) in
   let s2 := fire s1 (EvPointerMove (mkDomEvent (-5) 1 0)) in
   min p <= max p /\ 0 < step p /\
   effective s1 (mkDomEvent (-5) 1 0) = true /\
   exists v, written s2 = [(0%nat, v)] /\ v == 0 /\ ~ in_range p v).
Proof.
  split; cbv zeta.
  - split; [simpl; lra |]. split; [simpl; lra |]. split; [reflexivity |].
    eexists. split; [vm_compute; reflexivity |]. split; [reflexivity |].
    unfold in_range; simpl. lra.
  - split; [simpl; lra |]. split; [simpl; lra |]. split; [reflexivity |].
    eexists. split; [vm_compute; reflexivity |]. split; [reflexivity |].
    unfold in_range; simpl. lra.
Qed.




(** C3, what the code does.  Attaching to a browser whose listeners belong
    to other code and then calling the returned [destroy()] leaves one
    listener more than before: the pointerup listener [knobRelease].
    [destroy] passes [knobMove] to
    [removeEventListener("pointerup", ...)], which removes nothing.  A
    pointerup on the element after [destroy] still runs [knobRelease] and
    selects the input. *)
Theorem destroy_leaves_knobRelease (b : Browser) (o : Options) (p : Params) :
  foreign_browser b ->
  let s := fire (knobdrag b o p) EvDestroy in
  (forall l, In l (listeners s) <->
             In l (b_listeners b) \/ l = knobRelease_listener) /\
  ~ In knobRelease_listener (b_listeners b) /\
  (forall e, fire s (EvPointerUp e) =
             set_moved false (emit (Select (inputElem p)) s)).
Proof.
  intros F. cbv zeta.
  assert (L : forall l, In l (listeners (fire (knobdrag b o p) EvDestroy)) <->
                        In l (b_listeners b) \/ l = knobRelease_listener).
  { intro l. cbn [fire]. unfold destroy.
    rewrite !in_removeEventListener, actions_knobdrag.
    assert (Own : In l (b_listeners b) -> is_foreign l)
      by apply (foreign_not_own b l F).
    unfold is_foreign in Own.
    destruct (lockCursor o) eqn:Lc; cbn [fold_left snd action_destroy];
      rewrite !in_removeEventListener, in_knobdrag, Lc;
      unfold lock_listeners, knobMove_listener, knobRelease_listener;
      cbn [In]; split.
    - intros ((((((([H | [H | [H | [[_ H] | [H | H]]]]] & N1) & N2) & N3)
                 & N4) & N5) & N6) & N7); try tauto.
      destruct H as [<- | [<- | [<- | []]]]; congruence.
    - intros [H | ->].
      + repeat split; try tauto;
          intros ->; cbn [callback] in Own; tauto.
      + repeat split; try discriminate. tauto.
    - intros (((([H | [H | [H | [[H _] | [H | H]]]]] & N1) & N2) & N3) & N4);
        try tauto. discriminate H.
    - intros [H | ->].
      + repeat split; try tauto;
          intros ->; cbn [callback] in Own; tauto.
      + repeat split; try discriminate. tauto. }
  split; [exact L |]. split.
  - intro H. now apply (foreign_not_own b _ F) in H.
  - intro e.
    assert (W : wf (fire (knobdrag b o p) EvDestroy))
      by (apply wf_fire; now apply wf_knobdrag).
    rewrite (fire_pointerup _ e W).
    destruct (in_dec _ _ _) as [_ | Out];
      [| exfalso; apply Out; apply L; now right].
    unfold knobRelease. cbn [fire].
    pose proof (core_destroy (knobdrag b o p)) as C.
    apply core_fields in C. destruct C as (_ & _ & _ & _ & Ep & _ & _ & _ & Em).
    pose proof (core_knobdrag b o p) as K. unfold core in K.
    injection K as _ _ _ _ Kp _ _ _ Km.
    rewrite Em, Ep, Km, Kp. reflexivity.
Qed.

Lemma destroy_leaves_knobRelease_witness :
  let s := fire (knobdrag (mkBrowser [] [] false (fun _ => 5))
                          (mkOptions true) (mkParams 0 10 1 100 0 7))
                EvDestroy in
  listeners s = [knobRelease_listener] /\
  In knobRelease_listener (listeners s) /\
  effects (fire s (EvPointerUp (mkDomEvent 0 1 0))) = [Select 7%nat].
Proof.
  cbv zeta.
  destruct (destroy_leaves_knobRelease
              (mkBrowser [] [] false (fun _ => 5)) (mkOptions true)
              (mkParams 0 10 1 100 0 7))
    as (L & _ & Up).
  - split; constructor.
  - split; [reflexivity |]. split.
    + apply L. now right.
    + rewrite Up. reflexivity.
Defined.

(** When [destroy] is called while the pointer is locked, the
    [stopPropagation] listener that [lockChange] added stays as well. *)
Example destroy_while_locked :
  listeners (run (knobdrag (mkBrowser [] [] false (fun _ => 5)) (mkOptions true)
                           (mkParams 0 10 1 100 0 7))
                 [EvPointerLockChange true; EvDestroy])
  = [knobRelease_listener; mkListener Elem "pointermove" StopPropagation].
Proof. reflexivity. Qed.

(** C4 (amended).  For an attachment with [space <> 0]: the accumulated
    raw value is null from attachment until the first effective pointer
    move; on that move it starts from the store's current value; and
    every effective move while the action is attached makes it
    [clamp(min, rawValue - movementY / (space0 / (max0 - min0)), max)],
    evaluated as the code does, where [space0], [max0] and [min0] are
    those of the params passed at attachment and the clamp uses the
    current params. *)
Theorem rawValue_accumulates (b : Browser) (o : Options) (p : Params)
    (evs : list Event) :
  foreign_browser b ->
  ~ space p == 0 ->
  rawValue (knobdrag b o p) = None /\
  (no_effective_move (knobdrag b o p) evs ->
   rawValue (run (knobdrag b o p) evs) = None) /\
  (existsb is_destroy evs = false ->
   forall e,
     let s := run (knobdrag b o p) evs in
     effective s e = true ->
     (rawValue s = None -> accumulated s = stores s (valueStore (params s))) /\
     rawValue (fire s (EvPointerMove e)) =
       Some (clamp (min (params s))
                   (accumulated s
                    - movementY e / (space p / (max p - min p)))
                   (max (params s)))).
Proof.
  intros F _.
  assert (R0 : rawValue (knobdrag b o p) = None).
  { pose proof (core_knobdrag b o p) as C. unfold core in C.
    now injection C. }
  split; [exact R0 |]. split.
  - apply quiet_rawValue; [now apply wf_knobdrag | exact R0].
  - intros Nd e s Eff. split.
    + intro R. unfold accumulated. now rewrite R.
    + pose proof (attached_run evs _ Nd (attached_knobdrag b o p F)) as A.
      fold s in A. rewrite (attached_pointermove s e A).
      rewrite (knobMove_effective e s Eff). cbv zeta.
      unfold scaleMovement.
      destruct (run_scale evs (knobdrag b o p)) as [_ Ef].
      destruct (knobdrag_scale b o p) as [_ Kf].
      fold s in Ef. rewrite Ef, Kf. reflexivity.
Qed.

Lemma rawValue_accumulates_witness :
  let s := run (knobdrag (mkBrowser [] [] false (fun _ => 5)) (mkOptions false)
                         (mkParams 0 10 1 100 0 0))
               [EvPointerMove (mkDomEvent (-25) 1 0);
                EvPointerDown (mkDomEvent 0 1 0)] in
  rawValue s = None /\
  rawValue (fire s (EvPointerMove (mkDomEvent (-25) 1 0))) =
    Some (clamp 0 (5 - (-25) / (100 / (10 - 0))) 10).
Proof.
  cbv zeta.
  destruct (rawValue_accumulates
              (mkBrowser [] [] false (fun _ => 5)) (mkOptions false)
              (mkParams 0 10 1 100 0 0)
              [EvPointerMove (mkDomEvent (-25) 1 0);
               EvPointerDown (mkDomEvent 0 1 0)])
    as (_ & Quiet & Move).
  - split; constructor.
  - discriminate.
  - split.
    + apply Quiet. simpl. repeat split.
    + destruct (Move eq_refl (mkDomEvent (-25) 1 0) eq_refl) as (_ & R).
      exact R.
Defined.

(** C4 as stated fails after an [update]: attached with [min = 0],
    [max = 10], [space = 100] and updated to [max = 100], a move by
    [movementY = -100] from 5 gives 15.  The formula gives 100 when it is
    read with the current params and 10 when it is read with the params
    of the attachment. *)
Lemma rawValue_shift_uses_attachment_scale :
  let p := mkParams 0 10 1 100 0 0 in
  let p' := mkParams 0 100 1 100 0 0 in
  let s := run (knobdrag (mkBrowser [] [] false (fun _ => 5)) (mkOptions false) p)
               [EvUpdate p'; EvPointerDown (mkDomEvent 0 1 0)] in
  let e := mkDomEvent (-100) 1 0 in
  let formula (q : Params) :=
    clamp (min q) (accumulated s - movementY e * (max q - min q) / space q)
          (max q) in
  effective s e = true /\
  params s = p' /\
  exists r,
    rawValue (fire s (EvPointerMove e)) = Some r /\
    r == 15 /\
    formula p' == 100 /\ ~ r == formula p' /\
    formula p == 10 /\ ~ r == formula p.
Proof.
  cbv zeta. split; [reflexivity |]. split; [reflexivity |].
  eexists. split; [vm_compute; reflexivity |].
  split; [reflexivity |].
  split; [qdecide |]. split; [qdecide |]. split; qdecide.
Qed.

(** C5.  A pointermove whose [movementY] is 0, or for which the element
    neither holds pointer capture for the event's pointer id nor is the
    document's pointer-lock element, leaves the value store, the
    accumulated raw value and the moved flag unchanged: [knobMove] returns
    the state it was given, and so does the dispatch of the event. *)
Theorem knobMove_ineffective_unchanged (s : State) (e : DomEvent) :
  movementY e == 0 \/
  (hasPointerCapture (pointerId e) s = false /\ pointerLockElement s = false) ->
  knobMove e s = s /\
  stores (knobMove e s) = stores s /\
  rawValue (knobMove e s) = rawValue s /\
  moved (knobMove e s) = moved s /\
  (wf s -> fire s (EvPointerMove e) = s).
Proof.
  intro H. apply effective_false_iff in H.
  rewrite (knobMove_ineffective e s H).
  refine (conj eq_refl (conj eq_refl (conj eq_refl (conj eq_refl _)))).
  intro W. rewrite (fire_pointermove s e W).
  destruct (in_dec _ _ _); [apply (knobMove_ineffective e s H) | reflexivity].
Qed.

Lemma knobMove_ineffective_unchanged_witness :
  let s := knobdrag (mkBrowser [] [] false (fun _ => 5)) (mkOptions true)
                    (mkParams 0 10 1 100 0 0) in
  (knobMove (mkDomEvent 4 1 0) s = s /\
   stores (knobMove (mkDomEvent 4 1 0) s) = stores s /\
   rawValue (knobMove (mkDomEvent 4 1 0) s) = rawValue s /\
   moved (knobMove (mkDomEvent 4 1 0) s) = moved s /\
   fire s (EvPointerMove (mkDomEvent 4 1 0)) = s) /\
  (let s1 := fire s (EvPointerDown (mkDomEvent 0 1 0)) in
   knobMove (mkDomEvent 0 1 0) s1 = s1 /\
   stores (knobMove (mkDomEvent 0 1 0) s1) = stores s1 /\
   rawValue (knobMove (mkDomEvent 0 1 0) s1) = rawValue s1 /\
   moved (knobMove (mkDomEvent 0 1 0) s1) = moved s1).
Proof.
  cbv zeta. split.
  - destruct (knobMove_ineffective_unchanged
                (knobdrag (mkBrowser [] [] false (fun _ => 5)) (mkOptions true)
                          (mkParams 0 10 1 100 0 0))
                (mkDomEvent 4 1 0)) as (E & Es & Er & Em & Ef).
    + right. split; reflexivity.
    + refine (conj E (conj Es (conj Er (conj Em _)))).
      apply Ef. apply wf_knobdrag. split; constructor.
  - destruct (knobMove_ineffective_unchanged
                (fire (knobdrag (mkBrowser [] [] false (fun _ => 5))
                                (mkOptions true) (mkParams 0 10 1 100 0 0))
                      (EvPointerDown (mkDomEvent 0 1 0)))
                (mkDomEvent 0 1 0)) as (E & Es & Er & Em & _).
    + left. reflexivity.
    + exact (conj E (conj Es (conj Er Em))).
Defined.

(** C6.  The pointer-lock behaviour is governed by the options store:
    after every options notification, the first one made by [subscribe]
    at attachment included, the [actions] map holds a 'pointerlock' entry,
    with its three listeners registered and no other closure of
    [pointerlock(elem)] registered, if and only if the notified
    [lockCursor] is true; after a notification with [lockCursor] false no
    such closure is registered; and the listeners of the entry held before
    a notification are removed by it. *)
Theorem options_govern_pointerlock (b : Browser) (o0 o : Options)
    (p : Params) (evs : list Event) :
  foreign_browser b ->
  let s0 := knobdrag b o0 p in
  let s := run s0 evs in
  let s' := fire s (EvOptions o) in
  (Map_get "pointerlock" (actions s0) <> None <-> lockCursor o0 = true) /\
  (Map_get "pointerlock" (actions s') <> None <-> lockCursor o = true) /\
  (lockCursor o = true ->
   exists n,
     Map_get "pointerlock" (actions s') = Some (PointerLockAction n) /\
     (forall l, In l (lock_listeners n) -> In l (listeners s')) /\
     (forall l m, In l (listeners s') ->
                  lock_index (callback l) = Some m -> m = n)) /\
  (lockCursor o = false -> no_lock_listener s') /\
  (forall m, Map_get "pointerlock" (actions s) = Some (PointerLockAction m) ->
             forall l, In l (lock_listeners m) -> ~ In l (listeners s')).
Proof.
  intros F. cbv zeta. split.
  - unfold knobdrag. destruct (pointercapture _) as [a s1] eqn:P.
    match goal with
    | |- context [addEventListener ?t ?ty ?cb ?x] =>
        destruct (rest_addEventListener t ty cb x) as [-> _]
    end.
    match goal with
    | |- context [addEventListener ?t ?ty ?cb ?x] =>
        destruct (rest_addEventListener t ty cb x) as [-> _]
    end.
    rewrite entry_optionsSubscriber.
    destruct (lockCursor o0); split; congruence.
  - apply optionsSubscriber_governs.
    apply wf_run. now apply wf_knobdrag.
Qed.

Lemma options_govern_pointerlock_witness :
  let s := run (knobdrag (mkBrowser [] [] false (fun _ => 5)) (mkOptions true)
                         (mkParams 0 10 1 100 0 0))
               [EvOptions (mkOptions true)] in
  Map_get "pointerlock" (actions s) = Some (PointerLockAction 1) /\
  (forall l, In l (lock_listeners 1) ->
             In l (listeners (fire s (EvOptions (mkOptions true)))) -> False) /\
  no_lock_listener (fire s (EvOptions (mkOptions false))) /\
  exists n,
    Map_get "pointerlock" (actions (fire s (EvOptions (mkOptions true)))) =
      Some (PointerLockAction n) /\
    forall l, In l (lock_listeners n) ->
              In l (listeners (fire s (EvOptions (mkOptions true)))).
Proof.
  cbv zeta.
  assert (F : foreign_browser (mkBrowser [] [] false (fun _ => 5)))
    by (split; constructor).
  destruct (options_govern_pointerlock
              (mkBrowser [] [] false (fun _ => 5)) (mkOptions true)
              (mkOptions true) (mkParams 0 10 1 100 0 0)
              [EvOptions (mkOptions true)] F)
    as (_ & _ & On & _ & Old).
  destruct (options_govern_pointerlock
              (mkBrowser [] [] false (fun _ => 5)) (mkOptions true)
              (mkOptions false) (mkParams 0 10 1 100 0 0)
              [EvOptions (mkOptions true)] F)
    as (_ & _ & _ & Off & _).
  split; [reflexivity |].
  split; [exact (Old 1%nat eq_refl) |].
  split; [exact (Off eq_refl) |].
  destruct (On eq_refl) as (n & En & Hn & _).
  exists n. split; [exact En | exact Hn].
Defined.

(** C7.  The moved flag starts false, [knobRelease] always leaves it
    false, and while the action is attached it is true exactly when an
    effective pointer move has occurred since the most recent pointerup,
    or since the attachment when there was none. *)
Theorem moved_iff_effective_move_since_release (b : Browser) (o : Options)
    (p : Params) (evs : list Event) :
  foreign_browser b ->
  existsb is_destroy evs = false ->
  moved (knobdrag b o p) = false /\
  (forall s e, moved (knobRelease e s) = false) /\
  (moved (run (knobdrag b o p) evs) = true <->
   moved_since_release (knobdrag b o p) evs).
Proof.
  intros F Nd.
  assert (M0 : moved (knobdrag b o p) = false).
  { pose proof (core_knobdrag b o p) as C. unfold core in C.
    now injection C. }
  split; [exact M0 |]. split; [reflexivity |].
  pose proof (attached_knobdrag b o p F) as A0.
  revert Nd. induction evs as [| ev evs IH] using rev_ind; intro Nd.
  - simpl. rewrite M0. split; [discriminate |].
    intros (pre & e & post & E & _). now destruct pre.
  - rewrite existsb_app in Nd. apply orb_false_iff in Nd.
    destruct Nd as [Nd Nev]. simpl in Nev. rewrite orb_false_r in Nev.
    specialize (IH Nd).
    pose proof (attached_run evs _ Nd A0) as A.
    rewrite run_app. change (run (run (knobdrag b o p) evs) [ev])
      with (fire (run (knobdrag b o p) evs) ev).
    set (s := run (knobdrag b o p) evs) in *.
    destruct (is_pointerup ev) eqn:Up.
    + destruct ev; try discriminate Up.
      rewrite (attached_pointerup s e A).
      split; [discriminate |].
      intro H. exfalso. now apply moved_since_release_pointerup in H.
    + destruct ev as [e | e | e | e | e | e | locked | pid | o' | p' | | k v];
        try discriminate Up; try discriminate Nev;
        try (rewrite moved_since_release_snoc;
             [| reflexivity | intros e' E'; discriminate E'];
             match goal with
             | |- moved (fire s ?ev) = true <-> _ =>
                 rewrite (fire_moved ev s (proj1 A)); exact IH
             end).
      rewrite (attached_pointermove s e A).
      destruct (effective s e) eqn:Eff.
      * rewrite (knobMove_effective e s Eff). cbv zeta.
        split; [| reflexivity].
        intros _. exists evs, e, [].
        split; [reflexivity | split; [exact Eff | reflexivity]].
      * rewrite (knobMove_ineffective e s Eff).
        rewrite moved_since_release_snoc; [exact IH | reflexivity |].
        intros e' E'. injection E' as <-. exact Eff.
Qed.

Lemma moved_iff_effective_move_since_release_witness :
  moved (run (knobdrag (mkBrowser [] [] false (fun _ => 5)) (mkOptions true)
                       (mkParams 0 10 1 100 0 0))
             [EvPointerDown (mkDomEvent 0 1 0);
              EvPointerMove (mkDomEvent (-25) 1 0);
              EvMouseUp (mkDomEvent 0 1 0)]) = true.
Proof.
  apply (moved_iff_effective_move_since_release
           (mkBrowser [] [] false (fun _ => 5)) (mkOptions true)
           (mkParams 0 10 1 100 0 0)
           [EvPointerDown (mkDomEvent 0 1 0);
            EvPointerMove (mkDomEvent (-25) 1 0);
            EvMouseUp (mkDomEvent 0 1 0)]).
  - split; constructor.
  - reflexivity.
  - exists [EvPointerDown (mkDomEvent 0 1 0)], (mkDomEvent (-25) 1 0),
           [EvMouseUp (mkDomEvent 0 1 0)].
    repeat split.
Defined.

(** C8.  [update(newParams)] replaces the params object used for [min],
    [max], [step], the value store and the input element, and nothing
    else: [range] and [scaleFactor] keep the values computed from the
    params of the attachment.  After an update [scaleMovement] still
    divides by the original [space / (max - min)], while clamping and
    stepping use the new params. *)
Theorem update_keeps_scale (b : Browser) (o : Options) (p p' : Params)
    (evs : list Event) :
  let s := run (knobdrag b o p) evs in
  let s' := fire s (EvUpdate p') in
  s' = set_params p' s /\
  range s' = max p - min p /\
  scaleFactor s' = space p / (max p - min p) /\
  (forall d, scaleMovement s' d = d / (space p / (max p - min p))) /\
  (forall e, effective s' e = true ->
     let raw := clamp (min p')
                      (accumulated s' - movementY e / (space p / (max p - min p)))
                      (max p') in
     rawValue (knobMove e s') = Some raw /\
     effects (knobMove e s') =
       StoreWrite (valueStore p') (floorToStep p' raw) :: effects s') /\
  (forall e, moved s' = false ->
     effects (knobRelease e s') = Select (inputElem p') :: effects s').
Proof.
  cbv zeta.
  destruct (run_scale evs (knobdrag b o p)) as [Er Ef].
  destruct (knobdrag_scale b o p) as [Kr Kf].
  rewrite Kr in Er. rewrite Kf in Ef.
  cbn [fire]. unfold update.
  split; [reflexivity |].
  split; [exact Er |].
  split; [exact Ef |].
  split; [intro d; unfold scaleMovement; cbn [scaleFactor set_params];
          now rewrite Ef |].
  split.
  - intros e Eff. rewrite (knobMove_effective e _ Eff). cbv zeta.
    unfold scaleMovement. cbn [scaleFactor params set_params].
    rewrite Ef. split; reflexivity.
  - intros e M. unfold knobRelease. rewrite M. reflexivity.
Qed.

Lemma update_keeps_scale_witness :
  let p := mkParams 0 10 1 100 0 0 in
  let p' := mkParams 0 100 5 50 1 1 in
  let s := run (knobdrag (mkBrowser [] [] false (fun _ => 5)) (mkOptions false) p)
               [EvPointerDown (mkDomEvent 0 1 0)] in
  let s' := fire s (EvUpdate p') in
  let e := mkDomEvent (-100) 1 0 in
  scaleFactor s' = 100 / (10 - 0) /\
  rawValue (knobMove e s') =
    Some (clamp 0 (5 - (-100) / (100 / (10 - 0))) 100) /\
  effects (knobMove e s') =
    [StoreWrite 1 (floorToStep p' (clamp 0 (5 - (-100) / (100 / (10 - 0))) 100))] /\
  effects (knobRelease e s') = [Select 1%nat].
Proof.
  cbv zeta.
  destruct (update_keeps_scale
              (mkBrowser [] [] false (fun _ => 5)) (mkOptions false)
              (mkParams 0 10 1 100 0 0) (mkParams 0 100 5 50 1 1)
              [EvPointerDown (mkDomEvent 0 1 0)])
    as (_ & _ & Ef & _ & Move & Release).
  split; [exact Ef |].
  destruct (Move (mkDomEvent (-100) 1 0) eq_refl) as [R W].
  split; [exact R |]. split; [exact W |].
  exact (Release (mkDomEvent (-100) 1 0) eq_refl).
Defined.

(** C9.  Once the accumulated raw value has been set it is never reset to
    null nor resynchronised with the store: no event resets it, only a
    pointermove changes it, every later effective move accumulates from
    the previous clamped raw value, and a write made to a store from
    outside changes neither the raw value nor the value the next move
    writes. *)
Theorem rawValue_never_resynchronised (s : State) (r : Q) :
  wf s -> rawValue s = Some r ->
  (forall evs, exists r', rawValue (run s evs) = Some r') /\
  (forall ev, (forall e, ev <> EvPointerMove e) ->
              rawValue (fire s ev) = Some r) /\
  (forall e, effective s e = true ->
     rawValue (knobMove e s) =
       Some (clamp (min (params s)) (r - scaleMovement s (movementY e))
                   (max (params s)))) /\
  (forall k v e,
     let s' := fire s (EvStoreSet k v) in
     effective s' e = effective s e /\
     rawValue (knobMove e s') = rawValue (knobMove e s) /\
     written (knobMove e s') = written (knobMove e s)).
Proof.
  intros W R. split; [| split; [| split]].
  - intro evs.
    assert (H : wf (run s evs) /\ exists r', rawValue (run s evs) = Some r').
    { assert (H0 : wf s /\ exists r', rawValue s = Some r') by eauto.
      revert H0. generalize s as s0. unfold run.
      induction evs as [| ev evs IH]; intros s0 H0; simpl; [exact H0 |].
      apply IH. destruct H0 as [W0 [r0 R0]].
      split; [now apply wf_fire |].
      pose proof (fire_rawValue ev s0 W0) as F.
      destruct ev; try (rewrite F; eauto).
      rewrite (fire_pointermove s0 e W0).
      destruct (in_dec _ _ _); [| eauto].
      destruct (effective s0 e) eqn:Eff.
      - rewrite (knobMove_effective e s0 Eff). cbv zeta. eexists. reflexivity.
      - rewrite (knobMove_ineffective e s0 Eff). eauto. }
    apply H.
  - intros ev Nm. pose proof (fire_rawValue ev s W) as F.
    destruct ev; try (rewrite F; exact R).
    exfalso. now apply (Nm e).
  - intros e Eff. rewrite (knobMove_effective e s Eff). cbv zeta.
    unfold accumulated. rewrite R. reflexivity.
  - intros k v e. cbv zeta. cbn [fire].
    split; [reflexivity |].
    unfold knobMove.
    change (hasCapture (pointerId e) (set_stores (store_put k v (stores s)) s))
      with (hasCapture (pointerId e) s).
    destruct (JS.truthy (movementY e) && hasCapture (pointerId e) s).
    + cbn [rawValue set_moved set_stores params]. rewrite R.
      split; reflexivity.
    + split; reflexivity.
Qed.

Lemma rawValue_never_resynchronised_witness :
  let s := run (knobdrag (mkBrowser [] [] false (fun _ => 5)) (mkOptions false)
                         (mkParams 0 10 1 100 0 0))
               [EvPointerDown (mkDomEvent 0 1 0);
                EvPointerMove (mkDomEvent (-25) 1 0)] in
  let e := mkDomEvent (-10) 1 0 in
  exists r,
    rawValue s = Some r /\ r == 15 # 2 /\
    rawValue (fire s (EvPointerUp (mkDomEvent 0 1 0))) = Some r /\
    rawValue (knobMove e (fire s (EvStoreSet 0 2))) = rawValue (knobMove e s) /\
    written (knobMove e (fire s (EvStoreSet 0 2))) = written (knobMove e s).
Proof.
  cbv zeta.
  set (s := run _ _).
  assert (W : wf s).
  { apply wf_run, wf_knobdrag. split; constructor. }
  destruct (rawValue s) as [r |] eqn:R; [| vm_compute in R; discriminate R].
  destruct (rawValue_never_resynchronised s r W R) as (_ & Keep & _ & Ext).
  exists r. split; [reflexivity |]. split.
  - vm_compute in R. injection R as <-. reflexivity.
  - split; [apply Keep; intros e' E'; discriminate E' |].
    destruct (Ext 0%nat 2 (mkDomEvent (-10) 1 0)) as (_ & Er & Ew).
    split; [exact Er | exact Ew].
Defined.

(** C10.  When a pointerup is handled while the moved flag is false,
    [knobRelease] calls [select()] on the params' input element; when the
    flag is true it does not; in both cases nothing else changes besides
    the moved flag, which is false afterwards.  While the action is attached
    a pointerup on the element runs [knobRelease] and nothing else. *)
Theorem knobRelease_selects_unless_moved (s : State) (e : DomEvent) :
  (moved s = false ->
   knobRelease e s = set_moved false (emit (Select (inputElem (params s))) s)) /\
  (moved s = true -> knobRelease e s = set_moved false s) /\
  (attached s -> fire s (EvPointerUp e) = knobRelease e s).
Proof.
  unfold knobRelease. split; [| split].
  - now intros ->.
  - now intros ->.
  - apply attached_pointerup.
Qed.

Lemma knobRelease_selects_unless_moved_witness :
  let s := knobdrag (mkBrowser [] [] false (fun _ => 5)) (mkOptions true)
                    (mkParams 0 10 1 100 0 7) in
  let s1 := run s [EvPointerDown (mkDomEvent 0 1 0);
                   EvPointerMove (mkDomEvent (-25) 1 0)] in
  effects (fire s (EvPointerUp (mkDomEvent 0 1 0))) = [Select 7%nat] /\
  moved s1 = true /\
  effects (fire s1 (EvPointerUp (mkDomEvent 0 1 0))) = effects s1 /\
  moved (fire s1 (EvPointerUp (mkDomEvent 0 1 0))) = false.
Proof.
  cbv zeta.
  set (s := knobdrag _ _ _).
  set (s1 := run s _).
  assert (F : foreign_browser (mkBrowser [] [] false (fun _ => 5)))
    by (split; constructor).
  assert (A : attached s) by now apply attached_knobdrag.
  assert (A1 : attached s1) by now apply attached_run.
  destruct (knobRelease_selects_unless_moved s (mkDomEvent 0 1 0))
    as (Sel & _ & Up).
  destruct (knobRelease_selects_unless_moved s1 (mkDomEvent 0 1 0))
    as (_ & NoSel & Up1).
  rewrite (Up A), (Up1 A1), (Sel eq_refl), (NoSel eq_refl).
  repeat split.
Defined.

(** * Further properties of the code *)

(** ** clamp and floorToStep *)

Lemma clamp_inside (a b c : Q) : a <= b -> b <= c -> clamp a b c = b.
Proof.
  intros H1 H2. unfold clamp.
  destruct (Math_max_spec a b) as [[_ ->] | [H _]]; [| lra].
  destruct (Math_min_spec b c) as [[_ ->] | [H _]]; [reflexivity | lra].
Qed.

Lemma clamp_below (a b c : Q) : a <= c -> b <= a -> clamp a b c == a.
Proof.
  intros Hac H. unfold clamp.
  destruct (Math_max_spec a b) as [[H1 ->] | [H1 ->]];
    destruct (Math_min_spec b c) as [[H2 E2] | [H2 E2]];
    destruct (Math_min_spec a c) as [[H3 E3] | [H3 E3]];
    rewrite ?E2, ?E3; lra.
Qed.

Lemma clamp_above (a b c : Q) : a <= c -> c <= b -> clamp a b c == c.
Proof.
  intros Hac H. unfold clamp.
  destruct (Math_max_spec a b) as [[H1 ->] | [H1 ->]];
    destruct (Math_min_spec b c) as [[H2 E2] | [H2 E2]];
    destruct (Math_min_spec a c) as [[H3 E3] | [H3 E3]];
    rewrite ?E2, ?E3; lra.
Qed.

(** X1.  [clamp(a, b, c)] with ordered bounds returns [b] itself when it
    lies between them, the lower bound when [b] is below and the upper
    bound when [b] is above; clamping twice is clamping once. *)
Theorem clamp_ordered (a b c : Q) :
  a <= c ->
  (a <= b -> b <= c -> clamp a b c = b) /\
  (b <= a -> clamp a b c == a) /\
  (c <= b -> clamp a b c == c) /\
  clamp a (clamp a b c) c = clamp a b c.
Proof.
  intro Hac.
  split; [apply clamp_inside |].
  split; [now apply clamp_below |].
  split; [now apply clamp_above |].
  destruct (clamp_bounds a b c Hac) as [L U]. now apply clamp_inside.
Qed.

Lemma clamp_ordered_witness :
  clamp 0 7 10 = 7 /\ clamp 0 (-3) 10 == 0 /\ clamp 0 12 10 == 10.
Proof.
  assert (H : 0 <= 10) by discriminate.
  destruct (clamp_ordered 0 7 10 H) as (In1 & _).
  destruct (clamp_ordered 0 (-3) 10 H) as (_ & Lo & _).
  destruct (clamp_ordered 0 12 10 H) as (_ & _ & Hi & _).
  split; [apply In1; discriminate |].
  split; [apply Lo; discriminate | apply Hi; discriminate].
Defined.



(** X3.  A value that is an integer multiple of a positive step, of
    either sign, is returned by [floorToStep] as it is. *)
Theorem floorToStep_on_grid (p : Params) (v : Q) :
  0 < step p -> multiple_of (step p) v -> floorToStep p v == v.
Proof.
  intros Hs Hm.
  assert (R : JS.rem v (step p) == 0) by (apply rem_of_multiple; [lra | exact Hm]).
  destruct (floorToStep_cases p v) as [[_ E] | [_ E]]; rewrite E; lra.
Qed.

Lemma floorToStep_on_grid_witness :
  floorToStep (mkParams (-10) 10 (1 # 4) 700 0 0) (- (7 # 4)) == - (7 # 4).
Proof.
  apply floorToStep_on_grid.
  - reflexivity.
  - exists (-7)%Z. reflexivity.
Defined.

(** X4.  For a positive step [floorToStep] never moves a value away from
    zero or across it: a nonnegative value gives a result between 0 and
    the value, a negative value a result between the value and 0. *)
Theorem floorToStep_toward_zero (p : Params) (v : Q) :
  0 < step p ->
  (0 <= v -> 0 <= floorToStep p v /\ floorToStep p v <= v) /\
  (v <= 0 -> v <= floorToStep p v /\ floorToStep p v <= 0).
Proof.
  intro Hs. split; intro Hv.
  - now apply floorToStep_nonneg.
  - now apply floorToStep_nonpos.
Qed.

Lemma floorToStep_toward_zero_witness :
  (0 <= floorToStep (mkParams (-10) 10 3 700 0 0) 8 /\
   floorToStep (mkParams (-10) 10 3 700 0 0) 8 <= 8) /\
  (-8 <= floorToStep (mkParams (-10) 10 3 700 0 0) (-8) /\
   floorToStep (mkParams (-10) 10 3 700 0 0) (-8) <= 0).
Proof.
  destruct (floorToStep_toward_zero (mkParams (-10) 10 3 700 0 0) 8)
    as [Pos _]; [reflexivity |].
  destruct (floorToStep_toward_zero (mkParams (-10) 10 3 700 0 0) (-8))
    as [_ Neg]; [reflexivity |].
  split; [apply Pos; discriminate | apply Neg; discriminate].
Defined.

(** X5.  With a positive step of at most 0.0000005, half the 0.000001 of
    the leniency test, the test of [floorToStep] passes for every
    nonnegative value, and the value is returned unstepped. *)
Theorem floorToStep_tiny_step (p : Params) (v : Q) :
  0 < step p -> step p <= 1 # 2000000 -> 0 <= v -> floorToStep p v == v.
Proof.
  intros Hs He Hv.
  assert (Eps : (1 # 2000000) < epsilon) by reflexivity.
  destruct (rem_nonneg_bounds v (step p) Hs Hv) as [L U].
  destruct (floorToStep_cases p v) as [[Small E] | [_ E]]; rewrite E; lra.
Qed.

Lemma floorToStep_tiny_step_witness :
  floorToStep (mkParams 0 1 (1 # 4000000) 700 0 0) (1 # 3) == 1 # 3.
Proof.
  apply floorToStep_tiny_step.
  - reflexivity.
  - discriminate.
  - discriminate.
Defined.

(** ** The accumulated value along a drag *)

Lemma fire_raw_in_range (p : Params) (ev : Event) (s : State) :
  min p <= max p -> keeps_bounds p ev ->
  ((min (params s) = min p /\ max (params s) = max p) /\
   forall r, rawValue s = Some r -> in_range p r) ->
  (min (params (fire s ev)) = min p /\ max (params (fire s ev)) = max p) /\
  forall r, rawValue (fire s ev) = Some r -> in_range p r.
Proof.
  intros Hmm K.
  apply (fire_preserves
           (fun s' => (min (params s') = min p /\ max (params s') = max p) /\
                      forall r, rawValue s' = Some r -> in_range p r)).
  - intros s1 s2 C H. apply core_fields in C.
    destruct C as (_ & _ & _ & _ & Ep & _ & _ & Er & _). now rewrite Ep, Er.
  - intros cb e s1 [[E1 E2] R].
    destruct (Callback_eq_dec cb KnobMove) as [-> | N1].
    + cbn [call]. destruct (effective s1 e) eqn:Eff.
      * rewrite (knobMove_effective e s1 Eff). cbv zeta.
        split; [now split |].
        intros r Hr. cbn in Hr. injection Hr as <-.
        unfold in_range. rewrite <- E1, <- E2. apply clamp_bounds.
        now rewrite E1, E2.
      * rewrite (knobMove_ineffective e s1 Eff). now split.
    + destruct (Callback_eq_dec cb KnobRelease) as [-> | N2].
      * cbn [call]. unfold knobRelease. destruct (moved s1); now split.
      * pose proof (call_other cb e s1 N1 N2) as H. cbv zeta in H.
        destruct H as (Ep & _ & _ & Er & _). now rewrite Ep, Er.
  - intros b s1 H. exact H.
  - intros c s1 H. exact H.
  - intros p' s1 -> [_ R]. simpl in K. destruct K as (K1 & K2 & _).
    split; [now split | exact R].
  - intros st s1 H. exact H.
Qed.

(** X6.  Whatever the store holds and however far the pointer moves, the
    accumulated raw value, once set, lies within [[min, max]]: for params
    with [min <= max] and [space <> 0], over every sequence of events in
    which no [update] changes [min], [max] or [step]. *)
Theorem rawValue_in_range (b : Browser) (o : Options) (p : Params)
    (evs : list Event) :
  min p <= max p ->
  ~ space p == 0 ->
  Forall (keeps_bounds p) evs ->
  forall r, rawValue (run (knobdrag b o p) evs) = Some r -> in_range p r.
Proof.
  intros Hmm _ K.
  assert (H0 : (min (params (knobdrag b o p)) = min p /\
                max (params (knobdrag b o p)) = max p) /\
               forall r, rawValue (knobdrag b o p) = Some r -> in_range p r).
  { pose proof (core_knobdrag b o p) as C. unfold core in C.
    injection C as _ _ _ _ Ep _ _ Er _. rewrite Ep, Er.
    split; [now split | discriminate]. }
  revert H0. generalize (knobdrag b o p) as s. unfold run.
  induction K as [| ev evs Kev _ IH]; intros s H; simpl.
  - apply H.
  - apply IH. now apply fire_raw_in_range.
Qed.

Lemma rawValue_in_range_witness :
  exists r,
    rawValue (run (knobdrag (mkBrowser [] [] false (fun _ => 500))
                            (mkOptions false) (mkParams 0 10 1 100 0 0))
                  [EvPointerDown (mkDomEvent 0 1 0);
                   EvPointerMove (mkDomEvent (-25) 1 0)]) = Some r /\
    in_range (mkParams 0 10 1 100 0 0) r.
Proof.
  eexists. split; [vm_compute; reflexivity |].
  apply (rawValue_in_range
           (mkBrowser [] [] false (fun _ => 500)) (mkOptions false)
           (mkParams 0 10 1 100 0 0)
           [EvPointerDown (mkDomEvent 0 1 0);
            EvPointerMove (mkDomEvent (-25) 1 0)]).
  - discriminate.
  - discriminate.
  - repeat constructor.
  - vm_compute. reflexivity.
Defined.

(** X9.  The direction of a drag: with [space > 0] and [min < max] at
    attachment, an effective move up ([movementY < 0]) never lowers the
    accumulated value and an effective move down never raises it, as long
    as the value it starts from is within the current bounds. *)
Theorem drag_direction (b : Browser) (o : Options) (p : Params)
    (evs : list Event) (e : DomEvent) :
  0 < space p -> min p < max p ->
  let s := run (knobdrag b o p) evs in
  in_range (params s) (accumulated s) ->
  effective s e = true ->
  exists r,
    rawValue (knobMove e s) = Some r /\
    (movementY e < 0 -> accumulated s <= r) /\
    (0 < movementY e -> r <= accumulated s).
Proof.
  intros Hsp Hmm s [L U] Eff.
  rewrite (knobMove_effective e s Eff). cbv zeta.
  eexists. split; [reflexivity |].
  destruct (run_scale evs (knobdrag b o p)) as [_ Ef].
  destruct (knobdrag_scale b o p) as [_ Kf].
  fold s in Ef. unfold scaleMovement. rewrite Ef, Kf.
  assert (Hmm' : min (params s) <= max (params s)) by lra.
  assert (D : movementY e / (space p / (max p - min p))
              == movementY e * ((max p - min p) / space p)).
  { rewrite div_div. field. lra. }
  assert (G : 0 < (max p - min p) / space p).
  { apply Qlt_shift_div_l; lra. }
  set (x := accumulated s - movementY e / (space p / (max p - min p))).
  destruct (clamp_bounds (min (params s)) x (max (params s)) Hmm') as [CL CU].
  split; intro Dir.
  - assert (X : accumulated s <= x) by (unfold x; rewrite D; nra).
    destruct (Qlt_le_dec (max (params s)) x) as [Hi | Lo].
    + assert (C := clamp_above (min (params s)) x (max (params s)) Hmm').
      rewrite C by lra. exact U.
    + rewrite (clamp_inside (min (params s)) x (max (params s))); lra.
  - assert (X : x <= accumulated s) by (unfold x; rewrite D; nra).
    destruct (Qlt_le_dec x (min (params s))) as [Lo | Hi].
    + assert (C := clamp_below (min (params s)) x (max (params s)) Hmm').
      rewrite C by lra. exact L.
    + rewrite (clamp_inside (min (params s)) x (max (params s))); lra.
Qed.

Lemma drag_direction_witness :
  let s := run (knobdrag (mkBrowser [] [] false (fun _ => 5)) (mkOptions false)
                         (mkParams 0 10 1 100 0 0))
               [EvPointerDown (mkDomEvent 0 1 0)] in
  exists r, rawValue (knobMove (mkDomEvent (-30) 1 0) s) = Some r /\ 5 <= r.
Proof.
  cbv zeta.
  destruct (drag_direction
              (mkBrowser [] [] false (fun _ => 5)) (mkOptions false)
              (mkParams 0 10 1 100 0 0)
              [EvPointerDown (mkDomEvent 0 1 0)] (mkDomEvent (-30) 1 0))
    as (r & R & Up & _).
  - reflexivity.
  - reflexivity.
  - split; discriminate.
  - reflexivity.
  - exists r. split; [exact R |]. apply Up. reflexivity.
Defined.

(** ** Presses, pointer lock and the life of the listeners *)

Lemma optionsSubscriber_keeps_unlocked l o s :
  wf s -> lock_index (callback l) = None ->
  In l (listeners s) -> In l (listeners (optionsSubscriber o s)).
Proof.
  intros W Li Hl. apply in_optionsSubscriber. left.
  destruct (Map_get "pointerlock" (actions s)) as [a |] eqn:G; [| exact Hl].
  destruct (wf_entry s W a G) as (n & -> & _).
  apply in_action_destroy_lock. split; [exact Hl |].
  intro H. apply in_lock_listeners in H. destruct H as [_ H]. congruence.
Qed.

Lemma fire_keeps_pointerDown ev s :
  wf s -> is_destroy ev = false ->
  In (mkListener Elem "pointerdown" PointerDown) (listeners s) ->
  In (mkListener Elem "pointerdown" PointerDown) (listeners (fire s ev)).
Proof.
  intros W Nd Hl.
  destruct ev; cbn [fire]; try discriminate Nd;
    try (apply dispatch_keeps_listener; [discriminate | exact Hl]);
    try exact Hl.
  now apply optionsSubscriber_keeps_unlocked.
Qed.

Lemma run_keeps_pointerDown b o p evs :
  foreign_browser b -> existsb is_destroy evs = false ->
  In (mkListener Elem "pointerdown" PointerDown)
     (listeners (run (knobdrag b o p) evs)).
Proof.
  intros F Nd.
  assert (H0 : wf (knobdrag b o p) /\
               In (mkListener Elem "pointerdown" PointerDown)
                  (listeners (knobdrag b o p))).
  { split; [now apply wf_knobdrag |]. apply in_knobdrag. tauto. }
  revert Nd H0. generalize (knobdrag b o p) as s. unfold run.
  induction evs as [| ev evs IH]; intros s Nd [W H]; simpl.
  - exact H.
  - simpl in Nd. apply orb_false_iff in Nd. destruct Nd as [Nd1 Nd2].
    apply IH; [exact Nd2 |].
    split; [now apply wf_fire | now apply fire_keeps_pointerDown].
Qed.

Lemma fire_pointerdown s e :
  wf s ->
  fire s (EvPointerDown e) =
  if in_dec Listener_eq_dec (mkListener Elem "pointerdown" PointerDown)
            (listeners s)
  then pointerDown e s else s.
Proof.
  intro W. cbn [fire]. apply (dispatch_one Elem "pointerdown" PointerDown e s W).
  intros l Hl Li Ne s'.
  destruct (listening_callback _ _ l (placed s l W Hl) Li) as [El C].
  destruct (callback l); try reflexivity;
    try (destruct C as [_ C]; discriminate C).
  congruence.
Qed.

Lemma hasPointerCapture_set pid s :
  hasPointerCapture pid (setPointerCapture pid s) = true.
Proof.
  unfold setPointerCapture.
  destruct (hasPointerCapture pid s) eqn:H; [exact H |].
  unfold hasPointerCapture. cbn [captured set_captured existsb].
  now rewrite Z.eqb_refl.
Qed.

(** The action never gives up a capture: only the browser's report that
    it is lost ends it. *)
Lemma call_keeps_capture pid cb e s :
  hasPointerCapture pid s = true -> hasPointerCapture pid (call cb e s) = true.
Proof.
  intro H.
  destruct cb; cbn [call];
    unfold knobMove, knobRelease, pointerDown, preventDefault,
           stopPropagation, enterLock, exitLock, lockChange,
           setPointerCapture, addEventListener;
    repeat match goal with
           | |- context [if ?c then _ else _] => destruct c
           end;
    try exact H.
  unfold hasPointerCapture in *. cbn [captured set_captured existsb].
  rewrite H. apply orb_true_r.
Qed.

Lemma fire_keeps_capture pid ev s :
  releases pid ev = false ->
  hasPointerCapture pid s = true -> hasPointerCapture pid (fire s ev) = true.
Proof.
  intros Nr H.
  assert (C : forall s', core s' = core s -> hasPointerCapture pid s' = true).
  { intros s' E. apply core_fields in E. destruct E as (Ec & _).
    unfold hasPointerCapture in *. now rewrite Ec. }
  destruct ev as [e | e | e | e | e | e | locked | q | o | p | | k v];
    cbn [fire];
    try (apply (dispatch_preserves
                  (fun s' => hasPointerCapture pid s' = true));
         [intros cb s'; apply call_keeps_capture | exact H]);
    try exact H.
  - unfold hasPointerCapture in *. cbn [captured set_captured].
    simpl in Nr. apply existsb_exists in H. destruct H as (x & Hx & Ex).
    apply existsb_exists. exists x. split; [| exact Ex].
    apply filter_In. split; [exact Hx |].
    apply Z.eqb_eq in Ex. subst x. now rewrite Nr.
  - apply C, core_optionsSubscriber.
  - apply C, core_destroy.
Qed.

Lemma run_keeps_capture pid evs s :
  existsb (releases pid) evs = false ->
  hasPointerCapture pid s = true -> hasPointerCapture pid (run s evs) = true.
Proof.
  revert s. unfold run.
  induction evs as [| ev evs IH]; intros s Nr H; simpl.
  - exact H.
  - simpl in Nr. apply orb_false_iff in Nr. destruct Nr as [Nr1 Nr2].
    apply IH; [exact Nr2 | now apply fire_keeps_capture].
Qed.

(** X10.  While the action is attached, a pointerdown with a button other
    than 2 captures the pointer, and nothing the action does gives the
    capture up: over every sequence of later events in which the browser
    does not report the capture of that pointer lost, every move of that
    pointer with a nonzero [movementY] passes the test of [knobMove].  A
    pointerdown with button 2 changes nothing.  Neither touches the
    variables of the knob, the stores or the written values. *)
Theorem press_captures_pointer (b : Browser) (o : Options) (p : Params)
    (evs evs' : list Event) (e : DomEvent) :
  foreign_browser b ->
  existsb is_destroy evs = false ->
  let s := run (knobdrag b o p) evs in
  let s' := fire s (EvPointerDown e) in
  (button e <> 2%Z ->
   existsb (releases (pointerId e)) evs' = false ->
   hasPointerCapture (pointerId e) (run s' evs') = true /\
   forall e', pointerId e' = pointerId e -> ~ movementY e' == 0 ->
              effective (run s' evs') e' = true) /\
  (button e = 2%Z -> s' = s) /\
  knobvars s' = knobvars s.
Proof.
  intros F Nd s s'.
  assert (W : wf s) by (apply wf_run; now apply wf_knobdrag).
  assert (E : s' = pointerDown e s).
  { unfold s'. rewrite (fire_pointerdown s e W).
    destruct (in_dec _ _ _) as [_ | Out]; [reflexivity |].
    exfalso. apply Out. now apply run_keeps_pointerDown. }
  rewrite E. unfold pointerDown. split; [| split].
  - intros Nb Nr. apply Z.eqb_neq in Nb. rewrite Nb.
    pose proof (run_keeps_capture (pointerId e) evs' _ Nr
                  (hasPointerCapture_set (pointerId e) s)) as H.
    split; [exact H |].
    intros e' Ep Nz. unfold effective, hasCapture. rewrite Ep, H.
    unfold JS.truthy. destruct (Qeq_bool (movementY e') 0) eqn:Q;
      [| reflexivity].
    apply Qeq_bool_iff in Q. contradiction.
  - intros ->. reflexivity.
  - destruct (Z.eqb (button e) 2); [reflexivity |].
    unfold setPointerCapture.
    destruct (hasPointerCapture (pointerId e) s); reflexivity.
Qed.

Lemma press_captures_pointer_witness :
  let s := run (knobdrag (mkBrowser [] [] false (fun _ => 5)) (mkOptions true)
                         (mkParams 0 10 1 100 0 0)) [] in
  effective (run (fire s (EvPointerDown (mkDomEvent 0 4 0)))
                 [EvPointerMove (mkDomEvent (-5) 4 0);
                  EvPointerUp (mkDomEvent 0 4 0);
                  EvLostPointerCapture 7])
            (mkDomEvent 3 4 0) = true /\
  fire s (EvPointerDown (mkDomEvent 0 4 2)) = s.
Proof.
  cbv zeta.
  destruct (press_captures_pointer
              (mkBrowser [] [] false (fun _ => 5)) (mkOptions true)
              (mkParams 0 10 1 100 0 0) []
              [EvPointerMove (mkDomEvent (-5) 4 0);
               EvPointerUp (mkDomEvent 0 4 0);
               EvLostPointerCapture 7]
              (mkDomEvent 0 4 0))
    as (Cap & _ & _).
  - split; constructor.
  - reflexivity.
  - destruct (press_captures_pointer
                (mkBrowser [] [] false (fun _ => 5)) (mkOptions true)
                (mkParams 0 10 1 100 0 0) [] []
                (mkDomEvent 0 4 2))
      as (_ & Right & _).
    + split; constructor.
    + reflexivity.
    + split; [| now apply Right].
      destruct Cap as [_ Eff]; [discriminate | reflexivity |].
      apply Eff; [reflexivity | discriminate].
Defined.

(** The listeners a mouse or lock-change event reaches when every closure
    of [pointerlock(elem)] that is registered comes from call [n]. *)
Lemma dispatch_lock t ty cb0 n e s :
  wf s ->
  (forall l m, In l (listeners s) -> lock_index (callback l) = Some m -> m = n) ->
  In (mkListener t ty cb0) (lock_listeners n) ->
  dispatch t ty e s =
  if in_dec Listener_eq_dec (mkListener t ty cb0) (listeners s)
  then call cb0 e s else s.
Proof.
  intros W Only Hn. apply (dispatch_one t ty cb0 e s W).
  intros l Hl Li Ne s'.
  destruct (listening_callback _ _ l (placed s l W Hl) Li) as [El C].
  unfold lock_listeners in Hn. cbn [In] in Hn.
  destruct Hn as [Hn | [Hn | [Hn | []]]];
    injection Hn as <- <- <-;
    destruct (callback l) eqn:Cb; try reflexivity;
    try (destruct C as [C1 C2]; discriminate);
    exfalso; apply Ne; rewrite El;
    rewrite (Only l _ Hl (f_equal lock_index Cb)); reflexivity.
Qed.

Lemma dispatch_no_lock t ty cb0 n e s :
  wf s -> no_lock_listener s ->
  In (mkListener t ty cb0) (lock_listeners n) ->
  dispatch t ty e s = s.
Proof.
  intros W NL Hn.
  rewrite (dispatch_lock t ty cb0 n e s W); [| | exact Hn].
  - destruct (in_dec _ _ _) as [Hin | _]; [| reflexivity].
    apply NL in Hin. apply in_lock_listeners in Hn.
    destruct Hn as [_ Li]. cbn [callback] in *. congruence.
  - intros l m Hl Li. rewrite (NL l Hl) in Li. discriminate.
Qed.

(** X11.  Whether a mouse press asks for pointer lock follows the last
    options notification, also after [destroy()], which does not cancel
    the subscription: after a notification with [lockCursor] true a
    mousedown with a button other than 2 calls [requestPointerLock()] once
    and every mouseup calls [exitPointerLock()] once; after one with
    [lockCursor] false neither event does anything. *)
Theorem lock_requests_follow_option (b : Browser) (o0 o : Options)
    (p : Params) (evs : list Event) (e : DomEvent) :
  foreign_browser b ->
  let s := fire (run (knobdrag b o0 p) evs) (EvOptions o) in
  fire s (EvMouseDown e) =
    (if lockCursor o && negb (Z.eqb (button e) 2)
     then emit RequestPointerLock s else s) /\
  fire s (EvMouseUp e) =
    (if lockCursor o then emit ExitPointerLock s else s).
Proof.
  intros F s.
  assert (W0 : wf (run (knobdrag b o0 p) evs))
    by (apply wf_run; now apply wf_knobdrag).
  assert (W : wf s) by (unfold s; now apply wf_fire).
  destruct (optionsSubscriber_governs o _ W0) as (_ & On & Off & _).
  cbv zeta in On, Off. change (optionsSubscriber o _) with s in On, Off.
  destruct (lockCursor o) eqn:Lc.
  - destruct (On eq_refl) as (n & _ & Reg & Only).
    cbn [fire andb]. split.
    + rewrite (dispatch_lock Elem "mousedown" (EnterLock n) n e s W Only)
        by (now left).
      destruct (in_dec _ _ _) as [_ | Out];
        [| exfalso; apply Out; apply Reg; now left].
      cbn [call]. unfold enterLock. now destruct (Z.eqb (button e) 2).
    + rewrite (dispatch_lock Elem "mouseup" (ExitLock n) n e s W Only)
        by (right; now left).
      destruct (in_dec _ _ _) as [_ | Out];
        [reflexivity | exfalso; apply Out; apply Reg; right; now left].
  - specialize (Off eq_refl). cbn [fire andb]. split.
    + apply (dispatch_no_lock Elem "mousedown" (EnterLock 0) 0 e s W Off).
      now left.
    + apply (dispatch_no_lock Elem "mouseup" (ExitLock 0) 0 e s W Off).
      right. now left.
Qed.

Lemma lock_requests_follow_option_witness :
  let s := fire (run (knobdrag (mkBrowser [] [] false (fun _ => 5))
                               (mkOptions false) (mkParams 0 10 1 100 0 0))
                     [EvDestroy])
                (EvOptions (mkOptions true)) in
  effects (fire s (EvMouseDown (mkDomEvent 0 1 0))) = [RequestPointerLock] /\
  effects (fire s (EvMouseDown (mkDomEvent 0 1 2))) = [] /\
  effects (fire s (EvMouseUp (mkDomEvent 0 1 0))) = [ExitPointerLock].
Proof.
  cbv zeta.
  assert (F : foreign_browser (mkBrowser [] [] false (fun _ => 5)))
    by (split; constructor).
  destruct (lock_requests_follow_option
              (mkBrowser [] [] false (fun _ => 5)) (mkOptions false)
              (mkOptions true) (mkParams 0 10 1 100 0 0) [EvDestroy]
              (mkDomEvent 0 1 0) F) as [Down Up].
  destruct (lock_requests_follow_option
              (mkBrowser [] [] false (fun _ => 5)) (mkOptions false)
              (mkOptions true) (mkParams 0 10 1 100 0 0) [EvDestroy]
              (mkDomEvent 0 1 2) F) as [Right _].
  rewrite Down, Up, Right. repeat split.
Defined.

(** X12.  After a notification with [lockCursor] true, a change of the
    pointer lock registers [stopPropagation] for pointermove when the
    element becomes the lock element and removes it when it stops being
    one; while the element is the lock element every move with a nonzero
    [movementY] is effective, whichever pointer it comes from.  After a
    notification with [lockCursor] false a lock change reaches no listener
    of the action. *)
Theorem lock_change_toggles_stopPropagation (b : Browser) (o0 o : Options)
    (p : Params) (evs : list Event) :
  foreign_browser b ->
  let s := fire (run (knobdrag b o0 p) evs) (EvOptions o) in
  let sp := mkListener Elem "pointermove" StopPropagation in
  (lockCursor o = true ->
   In sp (listeners (fire s (EvPointerLockChange true))) /\
   ~ In sp (listeners (fire s (EvPointerLockChange false))) /\
   forall e, effective (fire s (EvPointerLockChange true)) e
             = JS.truthy (movementY e)) /\
  (lockCursor o = false ->
   forall locked,
     fire s (EvPointerLockChange locked) = set_pointerLockElement locked s).
Proof.
  intros F s sp.
  assert (W0 : wf (run (knobdrag b o0 p) evs))
    by (apply wf_run; now apply wf_knobdrag).
  assert (W : wf s) by (unfold s; now apply wf_fire).
  destruct (optionsSubscriber_governs o _ W0) as (_ & On & Off & _).
  cbv zeta in On, Off. change (optionsSubscriber o _) with s in On, Off.
  assert (Wl : forall locked, wf (set_pointerLockElement locked s)).
  { intro locked.
    apply (wf_same s); [reflexivity | reflexivity | reflexivity | exact W]. }
  split.
  - intro Lc. destruct (On Lc) as (n & _ & Reg & Only).
    assert (D : forall locked,
              fire s (EvPointerLockChange locked)
              = lockChange noEvent (set_pointerLockElement locked s)).
    { intro locked. cbn [fire].
      rewrite (dispatch_lock Document "pointerlockchange" (LockChange n) n
                 noEvent _ (Wl locked) Only)
        by (right; right; now left).
      destruct (in_dec _ _ _) as [_ | Out]; [reflexivity |].
      exfalso. apply Out. apply (Reg (mkListener Document "pointerlockchange"
                                                 (LockChange n))).
      right. right. now left. }
    rewrite !D. unfold lockChange. cbn [pointerLockElement set_pointerLockElement].
    split; [apply in_addEventListener; now right |].
    split.
    + intro H. apply in_removeEventListener in H. destruct H as [_ H].
      now apply H.
    + intro e. unfold effective, hasCapture.
      pose proof (core_addEventListener Elem "pointermove" StopPropagation
                    (set_pointerLockElement true s)) as C.
      apply core_fields in C. destruct C as (_ & El & _).
      rewrite El. cbn [pointerLockElement set_pointerLockElement].
      now rewrite orb_true_r, andb_true_r.
  - intros Lc locked. specialize (Off Lc). cbn [fire].
    apply (dispatch_no_lock Document "pointerlockchange" (LockChange 0) 0
             noEvent _ (Wl locked)).
    + exact Off.
    + right. right. now left.
Qed.

Lemma lock_change_toggles_stopPropagation_witness :
  let s := fire (run (knobdrag (mkBrowser [] [] false (fun _ => 5))
                               (mkOptions false) (mkParams 0 10 1 100 0 0)) [])
                (EvOptions (mkOptions true)) in
  In (mkListener Elem "pointermove" StopPropagation)
     (listeners (fire s (EvPointerLockChange true))) /\
  effective (fire s (EvPointerLockChange true)) (mkDomEvent 3 9 0) = true.
Proof.
  cbv zeta.
  destruct (lock_change_toggles_stopPropagation
              (mkBrowser [] [] false (fun _ => 5)) (mkOptions false)
              (mkOptions true) (mkParams 0 10 1 100 0 0) [])
    as [On _].
  - split; constructor.
  - destruct (On eq_refl) as (Reg & _ & Eff).
    split; [exact Reg |]. rewrite Eff. reflexivity.
Defined.

(** No event registers [knobMove] again. *)
Lemma call_adds_only_stopPropagation cb e s l :
  In l (listeners (call cb e s)) ->
  In l (listeners s) \/ l = mkListener Elem "pointermove" StopPropagation.
Proof.
  destruct cb; cbn [call];
    unfold knobMove, knobRelease, pointerDown, preventDefault,
           stopPropagation, enterLock, exitLock, lockChange,
           setPointerCapture;
    repeat match goal with
           | |- context [if ?c then _ else _] => destruct c
           end;
    try (intro H; now left).
  - intro H. now apply in_addEventListener in H.
  - intro H. apply in_removeEventListener in H. left. tauto.
Qed.

Lemma dispatch_adds_only_stopPropagation t ty e s l :
  In l (listeners (dispatch t ty e s)) ->
  In l (listeners s) \/ l = mkListener Elem "pointermove" StopPropagation.
Proof.
  apply (dispatch_preserves
           (fun s' => In l (listeners s') ->
                      In l (listeners s) \/
                      l = mkListener Elem "pointermove" StopPropagation)).
  - intros cb s' IH H. apply call_adds_only_stopPropagation in H.
    destruct H as [H | H]; [now apply IH | now right].
  - intro H. now left.
Qed.

Lemma in_fold_destroy l (acts : list (string * Action)) s :
  In l (listeners (fold_left (fun s ka => action_destroy (snd ka) s) acts s)) ->
  In l (listeners s).
Proof.
  revert s. induction acts as [| ka acts IH]; intros s H; simpl in H.
  - exact H.
  - apply IH in H. destruct (snd ka); cbn [action_destroy] in H;
      rewrite !in_removeEventListener in H; tauto.
Qed.

Lemma fire_never_registers_knobMove ev s :
  ~ In knobMove_listener (listeners s) ->
  ~ In knobMove_listener (listeners (fire s ev)).
Proof.
  intros Out H. apply Out. clear Out.
  destruct ev; cbn [fire] in H;
    try (apply dispatch_adds_only_stopPropagation in H;
         destruct H as [H | H]; [exact H | discriminate H]);
    try exact H.
  - apply in_optionsSubscriber in H. destruct H as [H | [_ H]].
    + destruct (Map_get "pointerlock" (actions s)) as [a |]; [| exact H].
      destruct a; cbn [action_destroy] in H;
        rewrite !in_removeEventListener in H; tauto.
    + apply in_lock_listeners in H. destruct H as [_ H]. discriminate H.
  - unfold destroy in H. rewrite !in_removeEventListener in H.
    destruct H as [[H _] _]. now apply in_fold_destroy in H.
Qed.

Lemma unregistered_knobMove_never_writes (evs : list Event) (s : State) :
  wf s -> ~ In knobMove_listener (listeners s) ->
  written (run s evs) = written s /\ rawValue (run s evs) = rawValue s.
Proof.
  revert s. unfold run.
  induction evs as [| ev evs IH]; intros s W Out; simpl.
  - split; reflexivity.
  - destruct (IH (fire s ev) (wf_fire ev s W)
                 (fire_never_registers_knobMove ev s Out)) as [Ew Er].
    rewrite Ew, Er. clear IH Ew Er.
    pose proof (fire_elsewhere ev s W) as K.
    destruct ev as [e | e | e | e | e | e | locked | pid | o' | p' | | k v];
      try (unfold knobvars in K; injection K as _ _ _ Kr _ _ Kw;
           split; [exact Kw | exact Kr]);
      try (split; reflexivity).
    + rewrite (fire_pointermove s e W).
      destruct (in_dec _ _ _) as [Hin | _]; [contradiction |].
      split; reflexivity.
    + rewrite (fire_pointerup s e W).
      destruct (in_dec _ _ _); [| split; reflexivity].
      unfold knobRelease. destruct (moved s); split; reflexivity.
Qed.

(** X13.  After [destroy()] the action never writes a value again and
    never changes the accumulated raw value, whatever events follow. *)
Theorem destroyed_never_writes (b : Browser) (o : Options) (p : Params)
    (evs evs' : list Event) :
  foreign_browser b ->
  let d := fire (run (knobdrag b o p) evs) EvDestroy in
  written (run d evs') = written d /\
  rawValue (run d evs') = rawValue d.
Proof.
  intros F d. apply unregistered_knobMove_never_writes.
  - unfold d. apply wf_fire, wf_run. now apply wf_knobdrag.
  - unfold d. cbn [fire]. unfold destroy. rewrite !in_removeEventListener.
    intros [[_ H] _]. now apply H.
Qed.

Lemma destroyed_never_writes_witness :
  written (run (fire (run (knobdrag (mkBrowser [] [] false (fun _ => 5))
                                    (mkOptions false) (mkParams 0 10 1 100 0 0))
                          [EvPointerDown (mkDomEvent 0 1 0);
                           EvPointerMove (mkDomEvent (-25) 1 0)])
                     EvDestroy)
               [EvPointerMove (mkDomEvent (-25) 1 0)])
  = [(0%nat, 70000 # 10000)].
Proof.
  destruct (destroyed_never_writes
              (mkBrowser [] [] false (fun _ => 5)) (mkOptions false)
              (mkParams 0 10 1 100 0 0)
              [EvPointerDown (mkDomEvent 0 1 0);
               EvPointerMove (mkDomEvent (-25) 1 0)]
              [EvPointerMove (mkDomEvent (-25) 1 0)]) as [Ew _].
  - split; constructor.
  - rewrite Ew. vm_compute. reflexivity.
Defined.

(** X14.  Managing the listeners never disturbs a drag: an options
    notification and [destroy()] change neither pointer capture, the
    stores, the params, the accumulated raw value nor the moved flag, and
    call nothing outside; a move is effective after them exactly when it
    was before. *)
Theorem listener_changes_leave_drag_alone (s : State) (o : Options) :
  (core (fire s (EvOptions o)) = core s /\
   forall e, effective (fire s (EvOptions o)) e = effective s e) /\
  (core (fire s EvDestroy) = core s /\
   forall e, effective (fire s EvDestroy) e = effective s e).
Proof.
  assert (H : forall s', core s' = core s ->
                core s' = core s /\
                forall e, effective s' e = effective s e).
  { intros s' C. split; [exact C |]. intro e.
    apply core_fields in C. destruct C as (Ec & El & _).
    unfold effective, hasCapture, hasPointerCapture. now rewrite Ec, El. }
  split; apply H; cbn [fire].
  - apply core_optionsSubscriber.
  - apply core_destroy.
Qed.
